(** * MediaMTX core: stream fan-out, HLS static source, SRT session, recorder

    A shallow embedding of the Go sources

    - the file of package [core] that defines [streamNonRTSPReadersMap] and
      [stream];
    - [internal/core/hls_source.go]: the supervisor loop of the HLS static
      source;
    - the file of package [srt] that defines [conn], the SRT session (it
      follows the recorder's tests in [internal/record/agent_test.go]);
    - [internal/record/agent_test.go]: the recorder's tests (the recorder
      itself is described by the specification only).

    Go code is sequential inside one goroutine; collaborators that live
    outside these files (the path manager, the path, the HLS client, the SRT
    socket, the MPEG-TS reader) are modelled by the answers they give, and the
    calls made to them are recorded in a trace of events. *)

From stdpp Require Import gmap list strings.
From Stdlib Require Import ZArith.

(** Go's [error] values, as far as the modelled code tells them apart: an
    error made by [errors.New] or [fmt.Errorf], the path manager's
    [AuthenticationError], and an error wrapping another one with [%w]. *)
Inductive error :=
  | ErrMsg (msg : string)
  | ErrAuthentication (msg : string)
  | ErrWrap (msg : string) (inner : error).

(** [err.Error()], as [%v] prints it. *)
Fixpoint error_string (e : error) : string :=
  match e with
  | ErrMsg m => m
  | ErrAuthentication m => m
  | ErrWrap m inner => m +:+ ": " +:+ error_string inner
  end.

(** [errors.As(err, &terr)] with [terr] of type [AuthenticationError]: the
    first error of that type along the chain of wrapped errors. *)
Fixpoint errors_As_AuthenticationError (e : error) : option error :=
  match e with
  | ErrMsg _ => None
  | ErrAuthentication m => Some (ErrAuthentication m)
  | ErrWrap _ inner => errors_As_AuthenticationError inner
  end.

#[global] Instance error_eq_dec : EqDecision error.
Proof. solve_decision. Defined.

#[global] Instance byte_eq_dec : EqDecision Byte.byte := Byte.byte_eq_dec.

(** [time.Duration] counts nanoseconds in an [int64]. *)
Definition Duration : Type := Z.
Bind Scope Z_scope with Duration.
Definition Millisecond : Duration := 1000000%Z.
Definition Second : Duration := (1000 * Millisecond)%Z.

(** Indexing a Go slice with an [int]: out of range (negative, or not below
    the length) the program panics, which is [None] here. *)
Definition slice_index {A} (l : list A) (i : Z) : option A :=
  if (i <? 0)%Z then None else l !! Z.to_nat i.

(* ===================================================================== *)
(** * The stream of package [core] *)
(* ===================================================================== *)

Module Stream.

(** A [reader] is an interface value.  The only thing [stream] asks of it is
    the type assertion [r.(pathRTSPSession)]; [readerID] is the identity of
    the value used as the key of the Go map. *)
Record reader := Reader {
  readerID : positive;
  isPathRTSPSession : bool;
}.

#[global] Instance reader_eq_dec : EqDecision reader.
Proof. solve_decision. Defined.

#[global] Instance reader_countable : Countable reader.
Proof.
  refine (inj_countable' (λ r, (readerID r, isPathRTSPSession r))
                         (λ p, Reader p.1 p.2) _).
  by intros [].
Defined.

Definition rtpPacket : Type := list Byte.byte.

(** [data] is an interface value too: [dataID] is its identity, the two
    getters below are read by [stream.writeData].  What [getRTPPackets]
    returns is decided by the track's [onData], which fills the packets in
    (see [StreamTrack]). *)
Record data := Data {
  dataID : nat;
  getTrackID : Z;
  getPTSEqualsDTS : bool;
}.

#[global] Instance data_eq_dec : EqDecision data.
Proof. solve_decision. Defined.

(** The interface [streamTrack]: [onData(data, hasNonRTSPReaders)] may change
    the track and leaves the unit with the RTP packets that
    [data.getRTPPackets()] returns afterwards. *)
Class StreamTrack (T : Type) := {
  onData : T → data → bool → T * list rtpPacket;
}.

(** Calls that leave the stream. *)
Inductive event :=
  | EvWritePacketRTP (trackID : Z) (pkt : rtpPacket) (ptsEqualsDTS : bool)
  | EvOnReaderData (c : reader) (d : data).

(** ** [streamNonRTSPReadersMap] *)

(** [ma] is a Go map used as a set; [None] is the nil map left by [close].
    The mutex is not modelled: every method below is one critical section. *)
Record streamNonRTSPReadersMap := ReadersMap {
  ma : option (gset reader);
}.

Definition newStreamNonRTSPReadersMap : streamNonRTSPReadersMap :=
  ReadersMap (Some ∅).

Definition streamNonRTSPReadersMap_close (m : streamNonRTSPReadersMap)
  : streamNonRTSPReadersMap :=
  ReadersMap None.

(** [m.ma[r] = struct{}{}]: writing to a nil map panics. *)
Definition streamNonRTSPReadersMap_add (m : streamNonRTSPReadersMap) (r : reader)
  : option streamNonRTSPReadersMap :=
  match ma m with
  | None => None
  | Some s => Some (ReadersMap (Some ({[r]} ∪ s)))
  end.

(** [delete(m.ma, r)]: a no-op on a nil map and on a missing key. *)
Definition streamNonRTSPReadersMap_remove (m : streamNonRTSPReadersMap) (r : reader)
  : streamNonRTSPReadersMap :=
  match ma m with
  | None => m
  | Some s => ReadersMap (Some (s ∖ {[r]}))
  end.

Definition streamNonRTSPReadersMap_hasReaders (m : streamNonRTSPReadersMap) : bool :=
  match ma m with
  | None => false
  | Some s => bool_decide (0 < size s)
  end.

(** ** [stream] *)

(** [gortsplib.ServerStream], as far as this file uses it:
    [NewServerStream(tracks)] keeps the tracks, [Tracks()] gives them back
    in the same order, [Close()] closes it. *)
Record ServerStream (track : Type) := MkServerStream {
  ssTracks : list track;
  ssClosed : bool;
}.
Arguments MkServerStream {track}.
Arguments ssTracks {track}.
Arguments ssClosed {track}.

Definition NewServerStream {track} (tracks : list track) : ServerStream track :=
  MkServerStream tracks false.

Record stream (track T : Type) := MkStream {
  nonRTSPReaders : streamNonRTSPReadersMap;
  rtspStream : ServerStream track;
  streamTracks : list T;
}.
Arguments MkStream {track T}.
Arguments nonRTSPReaders {track T}.
Arguments rtspStream {track T}.
Arguments streamTracks {track T}.

Section WithRangeOrder.

(** [for c := range m.ma] visits every key once, in an order Go leaves
    unspecified: [rangeOrder] is that order. *)
Variable rangeOrder : gset reader → list reader.

Definition streamNonRTSPReadersMap_writeData
    (m : streamNonRTSPReadersMap) (d : data) : list event :=
  match ma m with
  | None => []
  | Some s => (λ c, EvOnReaderData c d) <$> rangeOrder s
  end.

Section WithTracks.
Context {track T : Type} `{!StreamTrack T}.

(** [newStreamTrack] is defined in another file of the package; it is a
    parameter here. *)
Variable newStreamTrack : track → bool → T + error.

(** The loop of [newStream]: tracks are converted in order and the first
    error ends the construction. *)
Fixpoint newStreamTracks (tracks : list track) (generateRTPPackets : bool)
  : list T + error :=
  match tracks with
  | [] => inl []
  | t :: rest =>
      match newStreamTrack t generateRTPPackets with
      | inr err => inr err
      | inl st =>
          match newStreamTracks rest generateRTPPackets with
          | inr err => inr err
          | inl sts => inl (st :: sts)
          end
      end
  end.

Definition newStream (tracks : list track) (generateRTPPackets : bool)
  : stream track T + error :=
  let rs := NewServerStream tracks in
  match newStreamTracks (ssTracks rs) generateRTPPackets with
  | inr err => inr err
  | inl sts => inl (MkStream newStreamNonRTSPReadersMap rs sts)
  end.

Definition stream_close (s : stream track T) : stream track T :=
  MkStream (streamNonRTSPReadersMap_close (nonRTSPReaders s))
           (MkServerStream (ssTracks (rtspStream s)) true)
           (streamTracks s).

Definition stream_tracks (s : stream track T) : list track :=
  ssTracks (rtspStream s).

Definition stream_readerAdd (s : stream track T) (r : reader)
  : option (stream track T) :=
  if isPathRTSPSession r then Some s
  else
    m' ← streamNonRTSPReadersMap_add (nonRTSPReaders s) r;
    Some (MkStream m' (rtspStream s) (streamTracks s)).

Definition stream_readerRemove (s : stream track T) (r : reader)
  : stream track T :=
  if isPathRTSPSession r then s
  else MkStream (streamNonRTSPReadersMap_remove (nonRTSPReaders s) r)
                (rtspStream s) (streamTracks s).

(** [stream.writeData]: the track is looked up by the unit's track id
    (a panic when there is no such track), [onData] runs, the RTP packets
    go to the RTSP stream, and last the unit goes to every non-RTSP
    reader. *)
Definition stream_writeData (s : stream track T) (d : data)
  : option (stream track T * list event) :=
  t ← slice_index (streamTracks s) (getTrackID d);
  let '(t', pkts) :=
    onData t d (streamNonRTSPReadersMap_hasReaders (nonRTSPReaders s)) in
  Some (MkStream (nonRTSPReaders s) (rtspStream s)
                 (<[Z.to_nat (getTrackID d) := t']> (streamTracks s)),
        ((λ pkt, EvWritePacketRTP (getTrackID d) pkt (getPTSEqualsDTS d)) <$> pkts)
        ++ streamNonRTSPReadersMap_writeData (nonRTSPReaders s) d).

(** ** Sequences of operations *)

Inductive op :=
  | OpReaderAdd (r : reader)
  | OpReaderRemove (r : reader)
  | OpWriteData (d : data).

Definition step (s : stream track T) (o : op)
  : option (stream track T * list event) :=
  match o with
  | OpReaderAdd r => s' ← stream_readerAdd s r; Some (s', [])
  | OpReaderRemove r => Some (stream_readerRemove s r, [])
  | OpWriteData d => stream_writeData s d
  end.

Fixpoint run (s : stream track T) (ops : list op)
  : option (stream track T * list event) :=
  match ops with
  | [] => Some (s, [])
  | o :: rest =>
      '(s1, e1) ← step s o;
      '(s2, e2) ← run s1 rest;
      Some (s2, e1 ++ e2)
  end.

End WithTracks.
End WithRangeOrder.

(** ** What a reader is handed *)

(** The units [onReaderData] hands to reader [r], in the order of the calls. *)
Definition received (r : reader) (evs : list event) : list data :=
  omap (λ e, match e with
             | EvOnReaderData c d => if decide (c = r) then Some d else None
             | EvWritePacketRTP _ _ _ => None
             end) evs.

(** The subscription of [r] told from the operations alone: a [readerAdd] of
    [r] subscribes it unless it is an RTSP session, a [readerRemove] of [r]
    ends the subscription, nothing else touches it. *)
Definition subscribes (r : reader) (o : op) (sub : bool) : bool :=
  match o with
  | OpReaderAdd r' => if decide (r' = r) then negb (isPathRTSPSession r) else sub
  | OpReaderRemove r' => if decide (r' = r) then false else sub
  | OpWriteData _ => sub
  end.

Definition subscribed_from (sub : bool) (r : reader) (ops : list op) : bool :=
  foldl (λ b o, subscribes r o b) sub ops.

(** On a new stream nobody is subscribed. *)
Definition subscribed (r : reader) (ops : list op) : bool :=
  subscribed_from false r ops.

(** The units written while [r] was subscribed, in write order. *)
Fixpoint expected_from (sub : bool) (r : reader) (ops : list op) : list data :=
  match ops with
  | [] => []
  | OpWriteData d :: rest => (if sub then [d] else []) ++ expected_from sub r rest
  | o :: rest => expected_from (subscribes r o sub) r rest
  end.

Definition expected (r : reader) (ops : list op) : list data :=
  expected_from false r ops.

(** The units the operations write. *)
Definition writes (ops : list op) : list data :=
  omap (λ o, match o with OpWriteData d => Some d | _ => None end) ops.

(** ** Tracks for the examples *)

(** A track whose [onData] leaves the unit alone and makes no RTP packet. *)
Inductive plainTrack := PlainTrack.

#[global] Instance plainTrack_StreamTrack : StreamTrack plainTrack :=
  {| onData := λ t _ _, (t, []) |}.

(** Modelled from the spec: [newStreamTrack] is not among the source files.
    It fails when RTP packets are to be generated and the RTP packetizer does
    not support the format of the track (section 4.A); [supported] tells the
    supported formats and [mk] builds the track otherwise. *)
Definition newStreamTrack_spec {track T} (supported : track → bool)
    (mk : track → bool → T) (t : track) (generateRTPPackets : bool) : T + error :=
  if generateRTPPackets && negb (supported t)
  then inr (ErrMsg "we don't know how to generate RTP packets of track")
  else inl (mk t generateRTPPackets).

(** A stream with one track, two readers (the second an RTSP session) and
    three units, the last for a track the stream does not have. *)
Definition exNewStreamTrack (t : nat) (generateRTPPackets : bool)
  : plainTrack + error := inl PlainTrack.

Definition exStream : stream nat plainTrack :=
  MkStream newStreamNonRTSPReadersMap (NewServerStream [0]) [PlainTrack].

Definition exReader : reader := Reader 1 false.
Definition exRTSPSession : reader := Reader 2 true.
Definition exUnit1 : data := Data 1 0 true.
Definition exUnit2 : data := Data 2 0 true.
Definition exUnitNoTrack : data := Data 3 5 true.

Definition exOps : list op :=
  [ OpReaderAdd exReader; OpReaderAdd exRTSPSession; OpWriteData exUnit1;
    OpReaderRemove exReader; OpWriteData exUnit2 ].

End Stream.

(* ===================================================================== *)
(** * The HLS static source ([internal/core/hls_source.go]) *)
(* ===================================================================== *)

Module HLSSource.

(** [*gortsplib.Track] and [*stream] are pointers: only their identity
    matters here. *)
Definition track : Type := nat.
Definition streamRef : Type := nat.

(** The answer of the path to [OnSourceStaticSetReady]: a Go struct with two
    fields, each of which may be nil. *)
Record pathSourceStaticSetReadyRes := ReadyRes {
  Stream : option streamRef;
  Err : option error;
}.

#[global] Instance pathSourceStaticSetReadyRes_eq_dec :
  EqDecision pathSourceStaticSetReadyRes.
Proof. solve_decision. Defined.

(** Calls the source makes to its collaborators, in program order. *)
Inductive event :=
  | EvLog (msg : string)
  | EvNewClient (ur : string)
  (** The call with the tracks it announces, and the answer it returned. *)
  | EvOnSourceStaticSetReady (tracks : list track) (res : pathSourceStaticSetReadyRes)
  | EvOnSourceStaticSetNotReady
  | EvRTCPSendersNew (tracks : list track)
  | EvRTCPSendersOnFrame (trackID : Z) (payload : list Byte.byte)
  | EvRTCPSendersClose
  | EvStreamOnFrame (s : streamRef) (trackID : Z) (payload : list Byte.byte)
  | EvCtxDone
  | EvClientClose
  | EvClientWait
  | EvRetryPause (d : Duration)
  | EvCtxCancel
  | EvWgDone.

#[global] Instance event_eq_dec : EqDecision event.
Proof. solve_decision. Defined.

(** What the HLS client does during one attempt: the callbacks it makes (with
    the path's answer for [onTracks]) and how the [select] of [runInner]
    ends. *)
Inductive callback :=
  | OnTracks (videoTrack audioTrack : option track) (res : pathSourceStaticSetReadyRes)
  | OnFrame (isVideo : bool) (payload : list Byte.byte).

Inductive ending :=
  (** [c.Wait()] delivers the client's error first. *)
  | UpstreamError (err : error)
  (** [s.ctx.Done()] first; [late] are the callbacks the client still makes
      between [c.Close()] and the end of its teardown. *)
  | Cancelled (late : list callback).

Record attempt := Attempt {
  callbacks : list callback;
  attemptEnd : ending;
}.

(** The [select] of [run] between two attempts. *)
Inductive pauseOutcome := PauseElapsed | PauseCancelled.

Record round := Round {
  roundAttempt : attempt;
  roundPause : pauseOutcome;
}.

(** The variables of [runInner] that its closures capture. *)
Record locals := Locals {
  stream : option streamRef;
  rtcpSenders : option (list track);
  videoTrackID : Z;
  audioTrackID : Z;
}.

Definition locals0 : locals := Locals None None 0 0.

Definition Log (msg : string) : event := EvLog ("[hls source] " +:+ msg).

Definition appendTrack (tracks : list track) (t : option track) : list track :=
  match t with
  | Some tr => tracks ++ [tr]
  | None => tracks
  end.

(** The closure [onTracks]; the result is what it returns to the client. *)
Definition onTracks (l : locals) (videoTrack audioTrack : option track)
    (res : pathSourceStaticSetReadyRes) : locals * list event * option error :=
  let tracks0 : list track := [] in
  let videoID := match videoTrack with
                 | Some _ => Z.of_nat (length tracks0)
                 | None => videoTrackID l
                 end in
  let tracks1 := appendTrack tracks0 videoTrack in
  let audioID := match audioTrack with
                 | Some _ => Z.of_nat (length tracks1)
                 | None => audioTrackID l
                 end in
  let tracks2 := appendTrack tracks1 audioTrack in
  let l1 := Locals (stream l) (rtcpSenders l) videoID audioID in
  match Err res with
  | Some err => (l1, [EvOnSourceStaticSetReady tracks2 res], Some err)
  | None =>
      (Locals (Stream res) (Some tracks2) videoID audioID,
       [EvOnSourceStaticSetReady tracks2 res; Log "ready"; EvRTCPSendersNew tracks2],
       None)
  end.

(** The closure [onFrame]. *)
Definition onFrame (l : locals) (isVideo : bool) (payload : list Byte.byte)
  : list event :=
  let trackID := if isVideo then videoTrackID l else audioTrackID l in
  match stream l with
  | Some st => [EvRTCPSendersOnFrame trackID payload; EvStreamOnFrame st trackID payload]
  | None => []
  end.

Definition runCallback (l : locals) (cb : callback) : locals * list event :=
  match cb with
  | OnTracks v a res => (onTracks l v a res).1
  | OnFrame isVideo payload => (l, onFrame l isVideo payload)
  end.

Fixpoint runCallbacks (l : locals) (cbs : list callback) : locals * list event :=
  match cbs with
  | [] => (l, [])
  | cb :: rest =>
      let '(l1, e1) := runCallback l cb in
      let '(l2, e2) := runCallbacks l1 rest in
      (l2, e1 ++ e2)
  end.

(** The function deferred by [runInner]. *)
Definition runInner_deferred (l : locals) : list event :=
  match stream l with
  | Some _ => [EvOnSourceStaticSetNotReady; EvRTCPSendersClose]
  | None => []
  end.

Section WithSource.

(** The fields of [hlsSource] that [run] reads. *)
Variable ur : string.
Variable retryPause : Duration.

(** One attempt: the events and the boolean [runInner] returns. *)
Definition runInner (a : attempt) : list event * bool :=
  let '(l1, e1) := runCallbacks locals0 (callbacks a) in
  match attemptEnd a with
  | UpstreamError err =>
      (EvNewClient ur :: e1
         ++ [EvClientWait; Log ("ERR: " +:+ error_string err)]
         ++ runInner_deferred l1,
       true)
  | Cancelled late =>
      let '(l2, e2) := runCallbacks l1 late in
      (EvNewClient ur :: e1
         ++ [EvCtxDone; EvClientClose] ++ e2 ++ [EvClientWait]
         ++ runInner_deferred l2,
       false)
  end.

(** The loop of [run] against the rounds the environment plays.  The second
    component tells whether [run] has returned; it has not when the rounds
    are used up while the loop is still going. *)
Fixpoint run (rounds : list round) : list event * bool :=
  match rounds with
  | [] => ([], false)
  | r :: rest =>
      let '(e1, ok) := runInner (roundAttempt r) in
      if ok then
        match roundPause r with
        | PauseElapsed =>
            let '(e2, returned) := run rest in
            (e1 ++ EvRetryPause retryPause :: e2, returned)
        | PauseCancelled => (e1 ++ [EvCtxDone; EvCtxCancel; EvWgDone], true)
        end
      else (e1 ++ [EvCtxCancel; EvWgDone], true)
  end.

End WithSource.

(** A round in which the loop observes cancellation, during the attempt or
    during the pause after it. *)
Definition cancelled (r : round) : bool :=
  match attemptEnd (roundAttempt r) with
  | Cancelled _ => true
  | UpstreamError _ =>
      match roundPause r with
      | PauseCancelled => true
      | PauseElapsed => false
      end
  end.

(** A call of [OnSourceStaticSetReady] that returned without error. *)
Definition isReadyAccepted (ev : event) : bool :=
  match ev with
  | EvOnSourceStaticSetReady _ res => bool_decide (Err res = None)
  | _ => false
  end.

(** The contract of the path: an answer without an error carries the stream. *)
Definition answerWellFormed (ev : event) : Prop :=
  match ev with
  | EvOnSourceStaticSetReady _ res => Err res = None → is_Some (Stream res)
  | _ => True
  end.

(** ** Rounds for the examples *)

(** The client finds a video and an audio track, the path accepts them, one
    video frame arrives and then the upstream fails. *)
Definition exAttemptError : attempt :=
  Attempt [ OnTracks (Some 1) (Some 2) (ReadyRes (Some 7) None); OnFrame true [] ]
          (UpstreamError (ErrMsg "EOF")).

(** The source is closed while the client is still fetching the playlist. *)
Definition exAttemptCancelled : attempt :=
  Attempt [] (Cancelled []).

Definition exRounds : list round :=
  [ Round exAttemptError PauseElapsed; Round exAttemptCancelled PauseElapsed ].

(** The path accepts the tracks with an answer in which both fields are
    nil. *)
Definition exAttemptNilStream : attempt :=
  Attempt [ OnTracks (Some 1) None (ReadyRes None None) ]
          (UpstreamError (ErrMsg "EOF")).

(** The client announces its tracks twice, and the path accepts them both
    times. *)
Definition exAttemptTwice : attempt :=
  Attempt [ OnTracks (Some 1) None (ReadyRes (Some 7) None);
            OnTracks (Some 1) (Some 2) (ReadyRes (Some 7) None) ]
          (UpstreamError (ErrMsg "EOF")).

(** ** Kinds of events *)

(** The calls the closures [onTracks] and [onFrame] can make. *)
Definition isCallbackEvent (ev : event) : bool :=
  match ev with
  | EvLog _ | EvOnSourceStaticSetReady _ _ | EvRTCPSendersNew _
  | EvRTCPSendersOnFrame _ _ | EvStreamOnFrame _ _ _ => true
  | _ => false
  end.

Definition isStreamOnFrame (ev : event) : bool :=
  match ev with
  | EvStreamOnFrame _ _ _ => true
  | _ => false
  end.

Definition isNewClient (ev : event) : bool :=
  match ev with
  | EvNewClient _ => true
  | _ => false
  end.

Definition isClientWait (ev : event) : bool :=
  match ev with
  | EvClientWait => true
  | _ => false
  end.

(** The two calls with which [run] ends. *)
Definition isLoopExit (ev : event) : bool :=
  match ev with
  | EvCtxCancel | EvWgDone => true
  | _ => false
  end.

(** The tracks [onTracks] announces to the path. *)
Definition announcedTracks (videoTrack audioTrack : option track) : list track :=
  appendTrack (appendTrack [] videoTrack) audioTrack.

(** ** The variable [stream], read off the trace *)

(** [streamSetBy cur tgt evs]: over the events [evs], the value of the
    variable [stream] goes from [cur] to [tgt].  Either no call of
    [OnSourceStaticSetReady] in [evs] returned without error and the value is
    what it was, or the last such call handed over [tgt], was followed at once
    by the log line and by the making of the RTCP senders for the tracks it
    announced, and no later call was accepted. *)
Definition streamSetBy (cur tgt : option streamRef) (evs : list event) : Prop :=
  (cur = tgt ∧ Forall (λ ev, isReadyAccepted ev = false) evs)
  ∨ (∃ pre1 pre2 tracks,
       evs = pre1 ++ EvOnSourceStaticSetReady tracks (ReadyRes tgt None)
                  :: Log "ready" :: EvRTCPSendersNew tracks :: pre2
       ∧ Forall (λ ev, isReadyAccepted ev = false) pre2).

(** [framesServed cur tgt evs]: [evs] takes the variable [stream] from [cur]
    to [tgt], and every frame that [evs] hands to a stream goes to the value
    the variable has at that point. *)
Definition framesServed (cur tgt : option streamRef) (evs : list event) : Prop :=
  streamSetBy cur tgt evs
  ∧ ∀ pre st trackID payload post,
      evs = pre ++ EvStreamOnFrame st trackID payload :: post →
      streamSetBy cur (Some st) pre.

End HLSSource.

(* ===================================================================== *)
(** * The SRT session (package [srt]) *)
(* ===================================================================== *)

Module SRT.

Definition pauseAfterAuthError : Duration := (2 * Second)%Z.

(** [srt.ConnRequest], as far as the session uses it. *)
Record ConnRequest := MkConnRequest {
  StreamId : string;
  IsEncrypted : bool;
  SetPassphrase : string → option error;
}.

Inductive connState := connStateRead | connStatePublish.

#[global] Instance connState_eq_dec : EqDecision connState.
Proof. solve_decision. Defined.

Inductive streamIDMode := streamIDModeRead | streamIDModePublish.

Record streamID := MkStreamID {
  mode : streamIDMode;
  path : string;
  query : string;
  user : string;
  pass : string;
}.

Inductive AuthProtocol := AuthProtocolSRT.

#[global] Instance AuthProtocol_eq_dec : EqDecision AuthProtocol.
Proof. solve_decision. Defined.

Record PathAccessRequest := MkAccessRequest {
  Name : string;
  IP : string;
  Publish : bool;
  User : string;
  Pass : string;
  Proto : AuthProtocol;
  ID : positive;
  Query : string;
}.

#[global] Instance PathAccessRequest_eq_dec : EqDecision PathAccessRequest.
Proof. solve_decision. Defined.

(** [defs.Path]: the handle the path manager returns, with the part of its
    configuration the session reads. *)
Record Path := MkPath {
  PathName : string;
  SRTPublishPassphrase : string;
  SRTReadPassphrase : string;
}.

#[global] Instance Path_eq_dec : EqDecision Path.
Proof. solve_decision. Defined.

(** Pointers whose identity is all that matters. *)
Definition streamRef : Type := nat.
Definition sconnRef : Type := nat.
Definition media : Type := string.

(** A unit decoded from the MPEG-TS stream. *)
Record Unit := MkUnit {
  unitMedia : nat;
  PTS : Duration;
}.

#[global] Instance Unit_eq_dec : EqDecision Unit.
Proof. solve_decision. Defined.

Record srtNewConnReq := MkNewConnReq {
  connReq : ConnRequest;
}.

(** Calls the session makes to its collaborators, in program order. *)
Inductive event :=
  | EvOnConnect
  | EvOnDisconnect
  | EvWgDone
  | EvCtxCancel
  | EvCloseConn
  | EvLog (msg : string)
  (** [req.res <- nil] and [req.res <- c]. *)
  | EvResNil
  | EvResConn
  | EvAddPublisher (req : PathAccessRequest)
  | EvRemovePublisher (p : Path)
  | EvAddReader (req : PathAccessRequest)
  | EvRemoveReader (p : Path)
  (** [<-time.After(d)]. *)
  | EvSleep (d : Duration)
  (** [connReq.IsEncrypted()] and [connReq.SetPassphrase(passphrase)]. *)
  | EvIsEncrypted
  | EvSetPassphrase (passphrase : string)
  | EvSetState (st : connState) (pathName query : string) (sconn : sconnRef)
  | EvSconnSetReadDeadline (sconn : sconnRef) (timeout : option Duration)
  | EvSconnClose (sconn : sconnRef)
  | EvNewReader
  | EvToStream
  | EvStartPublisher (p : Path) (desc : list media) (generateRTPPackets : bool)
  | EvRead
  | EvWriteUnit (st : streamRef) (u : Unit)
  | EvAsyncWriterNew (size : Z)
  | EvFromStream (st : streamRef)
  | EvStreamRemoveReader (st : streamRef)
  | EvOnRead
  | EvOnUnread
  | EvWriterStart
  | EvWriterStop.

#[global] Instance event_eq_dec : EqDecision event.
Proof. solve_decision. Defined.

(** The [select] of [runPublish]: either the reader goroutine reports first,
    or cancellation is seen when the reader goroutine has made [n] of its
    calls (the rest happen between [sconn.Close()] and its end). *)
Inductive publishOutcome := ReaderFirst | CtxDoneFirst (n : nat).

(** The [select] of [runRead]. *)
Inductive readOutcome := ReadCtxDone | WriterError (err : error).

(** The answers of the collaborators of one session. *)
Record env := MkEnv {
  (** the request received on [c.chNew]; [None] when [c.ctx] is done first *)
  chNew : option srtNewConnReq;
  AddPublisher : PathAccessRequest → Path + error;
  AddReader : PathAccessRequest → Path * streamRef + error;
  (** the connection received on [c.chSetConn]; [None] when [c.ctx] is done
      first *)
  chSetConn : option sconnRef;
  NewReader : option error;
  ToStream : list media + error;
  StartPublisher : list media → streamRef + error;
  (** the units each successful [r.Read()] decodes, then the error of the
      [r.Read()] that fails *)
  reads : list (list Unit);
  readErr : error;
  publishSelect : publishOutcome;
  FromStream : option error;
  readSelect : readOutcome;
}.

(** The fields of [conn] the session reads. *)
Record conn := MkConn {
  ip : string;
  uuid : positive;
  readTimeout : Duration;
  writeQueueSize : Z;
}.

(** ** A trace monad with [defer] *)

Definition M (A : Type) : Type := list event * A.

Definition ret {A} (a : A) : M A := ([], a).

Definition bind {A B} (m : M A) (k : A → M B) : M B :=
  ((m.1 ++ (k m.2).1), (k m.2).2).

Definition emit (e : event) : M unit := ([e], tt).

Definition emitAll (es : list event) : M unit := (es, tt).

(** [defer f(); body]: the deferred call runs when [body] returns. *)
Definition defer {A} (d : event) (body : M A) : M A :=
  (body.1 ++ [d], body.2).

Notation "x <~ m ;~ k" := (bind m (λ x, k))
  (at level 100, m at next level, right associativity).
Notation "m ;~ k" := (bind m (λ _, k))
  (at level 100, right associativity).

Definition srtCheckPassphrase (connReq : ConnRequest) (passphrase : string)
  : M (option error) :=
  if decide (passphrase = "") then ret None
  else
    emit EvIsEncrypted ;~
    if negb (IsEncrypted connReq) then
      ret (Some (ErrMsg "connection is encrypted, but not passphrase is defined in configuration"))
    else
      emit (EvSetPassphrase passphrase) ;~
      match SetPassphrase connReq passphrase with
      | Some _ => ret (Some (ErrMsg "invalid passphrase"))
      | None => ret None
      end.

(** The access request of a session, built from its stream ID. *)
Definition accessRequest (c : conn) (sid : streamID) (publish : bool)
  : PathAccessRequest :=
  MkAccessRequest (path sid) (ip c) publish (user sid) (pass sid)
                  AuthProtocolSRT (uuid c) (query sid).

Section WithSession.

Variable c : conn.
Variable e : env.

(** [streamID.unmarshal] is defined in another file of the package. *)
Variable streamID_unmarshal : string → streamID + error.

Definition exchangeRequestWithConn : M (sconnRef + error) :=
  emit EvResConn ;~
  match chSetConn e with
  | Some sconn => ret (inl sconn)
  | None => ret (inr (ErrMsg "terminated"))
  end.

(** The loop of [runPublishReader].  The callbacks that [mpegts.ToStream]
    registered on the reader write the units decoded by [r.Read()] to the
    stream held by the variable [stream]. *)
Fixpoint readLoop (st : streamRef) (rs : list (list Unit)) : M error :=
  match rs with
  | [] => emit EvRead ;~ ret (readErr e)
  | us :: rest =>
      emit EvRead ;~ emitAll (EvWriteUnit st <$> us) ;~ readLoop st rest
  end.

Definition runPublishReader (sconn : sconnRef) (p : Path) : M error :=
  emit (EvSconnSetReadDeadline sconn (Some (readTimeout c))) ;~
  emit EvNewReader ;~
  match NewReader e with
  | Some err => ret err
  | None =>
      emit EvToStream ;~
      match ToStream e with
      | inr err => ret err
      | inl medias =>
          emit (EvStartPublisher p medias true) ;~
          match StartPublisher e medias with
          | inr err => ret err
          | inl st => readLoop st (reads e)
          end
      end
  end.

Definition runPublish (req : srtNewConnReq) (sid : streamID) : M (bool * error) :=
  let areq := accessRequest c sid true in
  emit (EvAddPublisher areq) ;~
  match AddPublisher e areq with
  | inr err =>
      match errors_As_AuthenticationError err with
      | Some terr => emit (EvSleep pauseAfterAuthError) ;~ ret (false, terr)
      | None => ret (false, err)
      end
  | inl p =>
      defer (EvRemovePublisher p)
        (chk <~ srtCheckPassphrase (connReq req) (SRTPublishPassphrase p) ;~
         match chk with
         | Some err => ret (false, err)
         | None =>
            r <~ exchangeRequestWithConn ;~
            match r with
            | inr err => ret (true, err)
            | inl sconn =>
                emit (EvSetState connStatePublish (path sid) (query sid) sconn) ;~
                let rd := runPublishReader sconn p in
                match publishSelect e with
                | ReaderFirst =>
                    emitAll rd.1 ;~ emit (EvSconnClose sconn) ;~ ret (true, rd.2)
                | CtxDoneFirst n =>
                    emitAll (take n rd.1) ;~ emit (EvSconnClose sconn) ;~
                    emitAll (drop n rd.1) ;~ ret (true, ErrMsg "terminated")
                end
            end
         end)
  end.

Definition runRead (req : srtNewConnReq) (sid : streamID) : M (bool * error) :=
  let areq := accessRequest c sid false in
  emit (EvAddReader areq) ;~
  match AddReader e areq with
  | inr err =>
      match errors_As_AuthenticationError err with
      | Some _ => emit (EvSleep pauseAfterAuthError) ;~ ret (false, err)
      | None => ret (false, err)
      end
  | inl (p, st) =>
      defer (EvRemoveReader p)
        (chk <~ srtCheckPassphrase (connReq req) (SRTReadPassphrase p) ;~
         match chk with
         | Some err => ret (false, err)
         | None =>
            r <~ exchangeRequestWithConn ;~
            match r with
            | inr err => ret (true, err)
            | inl sconn =>
                defer (EvSconnClose sconn)
                  (emit (EvSetState connStateRead (path sid) (query sid) sconn) ;~
                   emit (EvAsyncWriterNew (writeQueueSize c)) ;~
                   defer (EvStreamRemoveReader st)
                     (emit (EvFromStream st) ;~
                      match FromStream e with
                      | Some err => ret (true, err)
                      | None =>
                          emit (EvLog ("is reading from path '" +:+ PathName p +:+ "'")) ;~
                          emit EvOnRead ;~
                          defer EvOnUnread
                            (emit (EvSconnSetReadDeadline sconn None) ;~
                             emit EvWriterStart ;~
                             match readSelect e with
                             | ReadCtxDone =>
                                 emit EvWriterStop ;~ ret (true, ErrMsg "terminated")
                             | WriterError err => ret (true, err)
                             end)
                      end))
            end
         end)
  end.

Definition runInner2 (req : srtNewConnReq) : M (bool * error) :=
  match streamID_unmarshal (StreamId (connReq req)) with
  | inr err =>
      ret (false,
           ErrWrap ("invalid stream ID '" +:+ StreamId (connReq req) +:+ "'") err)
  | inl sid =>
      match mode sid with
      | streamIDModePublish => runPublish req sid
      | streamIDModeRead => runRead req sid
      end
  end.

Definition runInner : M error :=
  match chNew e with
  | None => ret (ErrMsg "terminated")
  | Some req =>
      r <~ runInner2 req ;~
      (if r.1 then ret tt else emit EvResNil) ;~
      ret r.2
  end.

Definition run : M unit :=
  defer EvWgDone
    (emit EvOnConnect ;~
     defer EvOnDisconnect
       (err <~ runInner ;~
        emit EvCtxCancel ;~
        emit EvCloseConn ;~
        emit (EvLog ("closed: " +:+ error_string err)))).

End WithSession.

(** ** Reading a trace *)

Definition isAdmission (ev : event) : bool :=
  match ev with
  | EvAddPublisher _ | EvAddReader _ => true
  | _ => false
  end.

Definition isRemovePublisher (ev : event) : bool :=
  match ev with
  | EvRemovePublisher _ => true
  | _ => false
  end.

Definition isRemoveReader (ev : event) : bool :=
  match ev with
  | EvRemoveReader _ => true
  | _ => false
  end.

Definition isWriteUnit (ev : event) : bool :=
  match ev with
  | EvWriteUnit _ _ => true
  | _ => false
  end.

Definition isStartPublisher (ev : event) : bool :=
  match ev with
  | EvStartPublisher _ _ _ => true
  | _ => false
  end.

(** The two calls of a publisher that touch the stream of the path. *)
Definition isPublishStep (ev : event) : bool :=
  isStartPublisher ev || isWriteUnit ev.

(** The calls that add the session to a path or remove it from one. *)
Definition isMembership (ev : event) : bool :=
  isAdmission ev || isRemovePublisher ev || isRemoveReader ev.

(** ** Sessions for the examples *)

Definition exConn : conn := MkConn "192.0.2.7" 1 (10 * Second)%Z 512.

Definition exPath : Path := MkPath "cam1" "" "".

Definition exConnRequest (streamId : string) : ConnRequest :=
  MkConnRequest streamId false (λ _, None).

(** A parser of stream IDs that knows two of them. *)
Definition exUnmarshal (streamId : string) : streamID + error :=
  if decide (streamId = "publish:cam1") then
    inl (MkStreamID streamIDModePublish "cam1" "" "" "")
  else if decide (streamId = "read:cam1") then
    inl (MkStreamID streamIDModeRead "cam1" "" "" "")
  else inr (ErrMsg "invalid value").

(** A publisher that is admitted, sends two units in one read and then
    closes the connection. *)
Definition exEnvPublish : env :=
  MkEnv (Some (MkNewConnReq (exConnRequest "publish:cam1")))
        (λ _, inl exPath) (λ _, inl (exPath, 5))
        (Some 9)
        None (inl ["H264"]) (λ _, inl 5)
        [[MkUnit 0 0; MkUnit 0 (40 * Millisecond)%Z]] (ErrMsg "EOF")
        ReaderFirst
        None ReadCtxDone.

(** A reader that is admitted and later terminated by the server. *)
Definition exEnvRead : env :=
  MkEnv (Some (MkNewConnReq (exConnRequest "read:cam1")))
        (λ _, inl exPath) (λ _, inl (exPath, 5))
        (Some 9)
        None (inl ["H264"]) (λ _, inl 5)
        [] (ErrMsg "EOF")
        ReaderFirst
        None ReadCtxDone.

(** A publisher whose credentials the path manager rejects. *)
Definition exEnvRejected : env :=
  MkEnv (Some (MkNewConnReq (exConnRequest "publish:cam1")))
        (λ _, inr (ErrAuthentication "authentication failed"))
        (λ _, inr (ErrAuthentication "authentication failed"))
        None
        None (inl []) (λ _, inr (ErrMsg "unused"))
        [] (ErrMsg "EOF")
        ReaderFirst
        None ReadCtxDone.

(** ** More kinds of events *)

(** The answer to the listener on [req.res]. *)
Definition isAnswer (ev : event) : bool :=
  match ev with
  | EvResNil | EvResConn => true
  | _ => false
  end.

Definition isResConn (ev : event) : bool :=
  match ev with
  | EvResConn => true
  | _ => false
  end.

Definition isSleep (ev : event) : bool :=
  match ev with
  | EvSleep _ => true
  | _ => false
  end.

Definition isSconnClose (ev : event) : bool :=
  match ev with
  | EvSconnClose _ => true
  | _ => false
  end.

Definition isAsyncWriterNew (ev : event) : bool :=
  match ev with
  | EvAsyncWriterNew _ => true
  | _ => false
  end.

Definition isStreamRemoveReader (ev : event) : bool :=
  match ev with
  | EvStreamRemoveReader _ => true
  | _ => false
  end.

(** The calls [srtCheckPassphrase] makes. *)
Definition isCheckEvent (ev : event) : bool :=
  match ev with
  | EvIsEncrypted | EvSetPassphrase _ => true
  | _ => false
  end.

(** The calls [runPublishReader] makes. *)
Definition isPublishReaderEvent (ev : event) : bool :=
  match ev with
  | EvSconnSetReadDeadline _ _ | EvNewReader | EvToStream
  | EvStartPublisher _ _ _ | EvRead | EvWriteUnit _ _ => true
  | _ => false
  end.

(** The calls only a publishing session makes, and those only a reading
    session makes. *)
Definition isPublisherCall (ev : event) : bool :=
  match ev with
  | EvAddPublisher _ | EvRemovePublisher _ | EvNewReader | EvToStream
  | EvStartPublisher _ _ _ | EvRead | EvWriteUnit _ _ => true
  | _ => false
  end.

Definition isReaderCall (ev : event) : bool :=
  match ev with
  | EvAddReader _ | EvRemoveReader _ | EvAsyncWriterNew _ | EvFromStream _
  | EvStreamRemoveReader _ | EvOnRead | EvOnUnread | EvWriterStart
  | EvWriterStop => true
  | _ => false
  end.

(** The answer of the path manager to the session, by the mode of its
    stream ID. *)
Definition admission (c : conn) (e : env) (sid : streamID) : Path + error :=
  match mode sid with
  | streamIDModePublish => AddPublisher e (accessRequest c sid true)
  | streamIDModeRead =>
      match AddReader e (accessRequest c sid false) with
      | inl (p, _) => inl p
      | inr err => inr err
      end
  end.

(** The passphrase of the path that the session checks, by its mode. *)
Definition passphraseOf (sid : streamID) (p : Path) : string :=
  match mode sid with
  | streamIDModePublish => SRTPublishPassphrase p
  | streamIDModeRead => SRTReadPassphrase p
  end.

(** Whether the session is accepted, told from the answers of its
    collaborators: a request arrived, its stream ID is valid, the path
    manager admitted the session and the passphrase check passed. *)
Definition accepted (c : conn) (e : env)
    (streamID_unmarshal : string → streamID + error) : bool :=
  match chNew e with
  | None => false
  | Some req =>
      match streamID_unmarshal (StreamId (connReq req)) with
      | inr _ => false
      | inl sid =>
          match admission c e sid with
          | inr _ => false
          | inl p =>
              match (srtCheckPassphrase (connReq req) (passphraseOf sid p)).2 with
              | Some _ => false
              | None => true
              end
          end
      end
  end.

(** Whether the path manager refused the session with an error in which
    [errors.As] finds an [AuthenticationError]. *)
Definition refusedForAuthentication (c : conn) (e : env)
    (streamID_unmarshal : string → streamID + error) : bool :=
  match chNew e with
  | None => false
  | Some req =>
      match streamID_unmarshal (StreamId (connReq req)) with
      | inr _ => false
      | inl sid =>
          match admission c e sid with
          | inr err =>
              match errors_As_AuthenticationError err with
              | Some _ => true
              | None => false
              end
          | inl _ => false
          end
      end
  end.

(** The number of events of a kind, and the kind of one given event. *)
Definition countEvents (P : event → bool) (l : list event) : nat :=
  length (filter (λ ev, P ev = true) l).

Definition isEvent (ev0 : event) (ev : event) : bool := bool_decide (ev = ev0).

End SRT.

(* ===================================================================== *)
(** * The recorder, fmp4 format (specification, section 4.F) *)
(* ===================================================================== *)

Module Record.

(** The formats of the descriptions in [agent_test.go]. *)
Inductive Format :=
  | H264
  | H265
  | MPEG4Audio (SampleRate ChannelCount : Z)
  | G711 (MULaw : bool) (SampleRate ChannelCount : Z)
  | LPCM (BitDepth SampleRate ChannelCount : Z).

Inductive MediaType := MediaTypeVideo | MediaTypeAudio.

(** A media of a description, with the format it carries. *)
Record Media := MkMedia {
  mediaType : MediaType;
  mediaFormat : Format;
}.

(** The codec of a track of [fmp4.Init], without the parameter sets of the
    video codecs. *)
Inductive Codec :=
  | CodecH264
  | CodecH265
  | CodecMPEG4Audio (SampleRate ChannelCount : Z)
  | CodecLPCM (BitDepth SampleRate ChannelCount : Z).

Record InitTrack := MkInitTrack {
  ID : Z;
  TimeScale : Z;
  TrackCodec : Codec;
}.

(** Modelled from the spec: the recorder is not among the source files.
    Time scales are format-defined, 90000 for H.264 and H.265 and the sample
    rate for the audio formats (section 4.F; G.711 as the value expected by
    [TestAgent]). *)
Definition timeScale (f : Format) : Z :=
  match f with
  | H264 | H265 => 90000
  | MPEG4Audio sr _ => sr
  | G711 _ sr _ => sr
  | LPCM _ sr _ => sr
  end.

(** Modelled from the spec: the codec declared for a format, as the value
    expected by [TestAgent] has it (G.711 is stored as 16-bit LPCM). *)
Definition codecOf (f : Format) : Codec :=
  match f with
  | H264 => CodecH264
  | H265 => CodecH265
  | MPEG4Audio sr ch => CodecMPEG4Audio sr ch
  | G711 _ sr ch => CodecLPCM 16 sr ch
  | LPCM bd sr ch => CodecLPCM bd sr ch
  end.

(** Modelled from the spec: the init of an fmp4 segment, which the absent
    recorder writes.  Each media becomes one track; the tracks are numbered
    in description order, [nextID] being the ID of the next one. *)
Fixpoint initTracksFrom (nextID : Z) (medias : list Media) : list InitTrack :=
  match medias with
  | [] => []
  | m :: rest =>
      MkInitTrack nextID (timeScale (mediaFormat m)) (codecOf (mediaFormat m))
        :: initTracksFrom (nextID + 1) rest
  end.

(** Modelled from the spec: track IDs are 1-based. *)
Definition initTracks (medias : list Media) : list InitTrack :=
  initTracksFrom 1 medias.

(** The description of [TestAgent]. *)
Definition testAgentDesc : list Media :=
  [ MkMedia MediaTypeVideo H264;
    MkMedia MediaTypeVideo H265;
    MkMedia MediaTypeAudio (MPEG4Audio 44100 2);
    MkMedia MediaTypeAudio (G711 false 8000 1);
    MkMedia MediaTypeAudio (LPCM 16 44100 2) ].

End Record.

(* ===================================================================== *)
(** * Properties of the stream *)
(* ===================================================================== *)

Section StreamProperties.
Import Stream.

Lemma slice_index_Some {A} (l : list A) (i : Z) :
  (0 ≤ i < Z.of_nat (length l))%Z → is_Some (slice_index l i).
Proof.
  intros [Hlo Hhi]. unfold slice_index.
  destruct (Z.ltb_spec i 0) as [?|_]; [lia|].
  apply lookup_lt_is_Some. lia.
Qed.

Lemma slice_index_None {A} (l : list A) (i : Z) :
  ¬ (0 ≤ i < Z.of_nat (length l))%Z → slice_index l i = None.
Proof.
  intros Hout. unfold slice_index.
  destruct (Z.ltb_spec i 0) as [?|?]; [done|].
  apply lookup_ge_None. lia.
Qed.

Context {track T : Type} `{!StreamTrack T}.
Variable newStreamTrack : track → bool → T + error.

(** The loop of [newStream] succeeds exactly when every track converts, and
    then keeps one converted track per track, in order. *)
Lemma newStreamTracks_inl tracks gen sts :
  newStreamTracks newStreamTrack tracks gen = inl sts ↔
  Forall2 (λ t st, newStreamTrack t gen = inl st) tracks sts.
Proof.
  revert sts. induction tracks as [|t rest IH]; intros sts; simpl.
  - split.
    + intros [= <-]. constructor.
    + intros Hall. by inversion Hall.
  - destruct (newStreamTrack t gen) as [st|err] eqn:Hst.
    + destruct (newStreamTracks newStreamTrack rest gen) as [sts'|err] eqn:Hrest.
      * split.
        -- intros [= <-]. constructor; [done|]. by apply IH.
        -- intros Hall. inversion Hall as [|? st' ? sts'' Hhd Htl]; subst.
           apply IH in Htl. congruence.
      * split; [done|].
        intros Hall. inversion Hall as [|? st' ? sts'' Hhd Htl]; subst.
        apply IH in Htl. congruence.
    + split; [done|].
      intros Hall. inversion Hall; subst. congruence.
Qed.

(** It fails with the error of the first track that does not convert. *)
Lemma newStreamTracks_inr tracks gen err :
  newStreamTracks newStreamTrack tracks gen = inr err ↔
  ∃ i t, tracks !! i = Some t ∧ newStreamTrack t gen = inr err ∧
         ∀ j t', j < i → tracks !! j = Some t' → ∃ st, newStreamTrack t' gen = inl st.
Proof.
  induction tracks as [|t rest IH]; simpl.
  - split; [done|]. intros (i & t & Hi & _). by rewrite lookup_nil in Hi.
  - destruct (newStreamTrack t gen) as [st|err'] eqn:Hst.
    + destruct (newStreamTracks newStreamTrack rest gen) as [sts'|err'] eqn:Hrest.
      * split; [done|].
        intros ([|i] & t' & Hi & Herr & Hbefore); simpl in Hi.
        -- congruence.
        -- assert (inl sts' = inr err :> list T + error) as Habs; [|done].
           apply IH. exists i, t'. split_and!; [done..|].
           intros j t'' Hj Hlook. apply (Hbefore (S j)); [lia|done].
      * split.
        -- intros [= ->]. destruct IH as [IH _].
           destruct (IH eq_refl) as (i & t' & Hi & Herr & Hbefore).
           exists (S i), t'. split_and!; [done..|].
           intros [|j] t'' Hj Hlook; simpl in Hlook.
           ++ exists st. congruence.
           ++ apply (Hbefore j); [lia|done].
        -- intros ([|i] & t' & Hi & Herr & Hbefore); simpl in Hi.
           ++ congruence.
           ++ f_equal. assert (inr err' = inr err :> list T + error) as [= ->]; [|done].
              apply IH. exists i, t'. split_and!; [done..|].
              intros j t'' Hj Hlook. apply (Hbefore (S j)); [lia|done].
    + split.
      * intros [= ->]. exists 0, t. split_and!; [done..|]. intros; lia.
      * intros ([|i] & t' & Hi & Herr & Hbefore); simpl in Hi.
        -- congruence.
        -- destruct (Hbefore 0 t) as [st Hok]; [lia|done|]. congruence.
Qed.

(** [newStream] fails exactly when some track does not convert. *)
Lemma newStream_inr_iff (tracks : list track) (gen : bool) :
  (∃ err, newStream newStreamTrack tracks gen = inr err) ↔
  (∃ t err, t ∈ tracks ∧ newStreamTrack t gen = inr err).
Proof.
  unfold newStream. simpl.
  destruct (newStreamTracks newStreamTrack tracks gen) as [sts|err] eqn:Hloop.
  - apply newStreamTracks_inl in Hloop.
    split; [by intros [? ?]|].
    intros (t & err & Hin & Herr).
    apply list_elem_of_lookup in Hin as [i Hi].
    destruct (Forall2_lookup_l _ _ _ _ _ Hloop Hi) as (st & _ & Hok).
    congruence.
  - apply newStreamTracks_inr in Hloop as (i & t & Hi & Herr & Hbefore).
    split; [|by eauto].
    intros _. exists t, err. split; [|done].
    apply list_elem_of_lookup. by exists i.
Qed.

(** C4 (as amended): [newStream] returns an error exactly when
    [newStreamTrack] fails on some track of the description, and then it is the
    error of the first such track; otherwise, an empty description included,
    it returns a stream on the given tracks, with no subscriber and with one
    [streamTrack] per track, each the conversion of the track at its
    position. *)
Theorem newStream_result (tracks : list track) (gen : bool) :
  ((∃ err, newStream newStreamTrack tracks gen = inr err) ↔
   (∃ t err, t ∈ tracks ∧ newStreamTrack t gen = inr err))
  ∧ match newStream newStreamTrack tracks gen with
    | inr err =>
        ∃ i t, tracks !! i = Some t ∧ newStreamTrack t gen = inr err ∧
               ∀ j t', j < i → tracks !! j = Some t' →
                       ∃ st, newStreamTrack t' gen = inl st
    | inl s =>
        stream_tracks s = tracks
        ∧ ma (nonRTSPReaders s) = Some ∅
        ∧ length (streamTracks s) = length tracks
        ∧ Forall2 (λ t st, newStreamTrack t gen = inl st) tracks (streamTracks s)
    end.
Proof.
  split; [apply newStream_inr_iff|].
  unfold newStream. simpl.
  destruct (newStreamTracks newStreamTrack tracks gen) as [sts|err] eqn:Hloop.
  - apply newStreamTracks_inl in Hloop.
    split_and!; [done|done| |done].
    symmetry. by eapply Forall2_length.
  - by apply newStreamTracks_inr in Hloop.
Qed.

End StreamProperties.

(** C4 (as stated) fails: on an empty description [newStream] returns a
    stream, not an error, whatever [newStreamTrack] does. *)
Lemma newStream_empty_description :
  Stream.newStream (track := nat) (T := Stream.plainTrack)
    (λ _ _, inr (ErrMsg "unsupported")) [] true
  = inl (Stream.MkStream Stream.newStreamNonRTSPReadersMap
                         (Stream.NewServerStream []) []).
Proof. reflexivity. Qed.

(** With [newStreamTrack] as the specification describes it, [newStream]
    fails exactly when RTP packets are to be generated and the format of some
    track is not supported by the packetizer. *)
Lemma newStream_unsupported_format {track T : Type}
    (supported : track → bool) (mk : track → bool → T)
    (tracks : list track) (gen : bool) :
  (∃ err, Stream.newStream (Stream.newStreamTrack_spec supported mk) tracks gen = inr err)
  ↔ gen = true ∧ ∃ t, t ∈ tracks ∧ supported t = false.
Proof.
  rewrite newStream_inr_iff.
  unfold Stream.newStreamTrack_spec. split.
  - intros (t & err & Hin & Herr).
    destruct gen; simpl in Herr; [|done].
    destruct (supported t) eqn:Hsup; simpl in Herr; [done|]. eauto.
  - intros [-> (t & Hin & Hsup)]. exists t. eexists. split; [done|].
    by rewrite Hsup.
Qed.

Section StreamFanout.
Import Stream.
Context {track T : Type} `{!StreamTrack T}.

Lemma received_app r e1 e2 :
  received r (e1 ++ e2) = received r e1 ++ received r e2.
Proof. apply omap_app. Qed.

Lemma received_packets r tid pts (pkts : list rtpPacket) :
  received r ((λ pkt, EvWritePacketRTP tid pkt pts) <$> pkts) = [].
Proof. induction pkts as [|pkt rest IH]; [done|]. exact IH. Qed.

(** One call per key: a reader among the keys receives the unit once, any
    other reader not at all. *)
Lemma received_calls r d (l : list reader) :
  NoDup l →
  received r ((λ c, EvOnReaderData c d) <$> l) = if bool_decide (r ∈ l) then [d] else [].
Proof.
  induction 1 as [|c l Hnotin Hnd IH]; [done|].
  unfold received in *. cbn [fmap list_fmap omap list_omap].
  rewrite IH. destruct (decide (c = r)) as [->|Hne].
  - rewrite (bool_decide_true (r ∈ r :: l)) by left.
    by rewrite (bool_decide_false (r ∈ l)).
  - rewrite (bool_decide_ext (r ∈ c :: l) (r ∈ l)); [done|].
    rewrite elem_of_cons. split; [|by right].
    by intros [->|Hin].
Qed.

(** Any order in which [range] may visit the keys of the map. *)
Variable rangeOrder : gset reader → list reader.
Hypothesis rangeOrder_perm : ∀ m, rangeOrder m ≡ₚ elements m.

Lemma readersMap_writeData_received m s r d :
  ma m = Some s →
  received r (streamNonRTSPReadersMap_writeData rangeOrder m d)
  = if bool_decide (r ∈ s) then [d] else [].
Proof.
  intros Hma. unfold streamNonRTSPReadersMap_writeData. rewrite Hma.
  rewrite received_calls.
  - rewrite (bool_decide_ext (r ∈ rangeOrder s) (r ∈ s)); [done|].
    rewrite (rangeOrder_perm s). apply elem_of_elements.
  - rewrite (rangeOrder_perm s). apply NoDup_elements.
Qed.

(** [stream.writeData] hands the unit once to every subscriber and to nobody
    else, and leaves the subscribers and the number of tracks as they are. *)
Lemma stream_writeData_spec (s s' : stream track T) m d evs :
  ma (nonRTSPReaders s) = Some m →
  stream_writeData rangeOrder s d = Some (s', evs) →
  nonRTSPReaders s' = nonRTSPReaders s
  ∧ length (streamTracks s') = length (streamTracks s)
  ∧ ∀ r, received r evs = if bool_decide (r ∈ m) then [d] else [].
Proof.
  intros Hma. unfold stream_writeData.
  destruct (slice_index (streamTracks s) (getTrackID d)) as [t|]; [|done].
  simpl. destruct (onData t d _) as [t' pkts]. intros [= <- <-]. simpl.
  split_and!; [done|by rewrite length_insert|].
  intros r. rewrite received_app, received_packets. simpl.
  by apply readersMap_writeData_received.
Qed.

Lemma stream_writeData_total (s : stream track T) d :
  (0 ≤ getTrackID d < Z.of_nat (length (streamTracks s)))%Z →
  is_Some (stream_writeData rangeOrder s d).
Proof.
  intros Hrange. unfold stream_writeData.
  destruct (slice_index_Some _ _ Hrange) as [t ->]. simpl.
  by destruct (onData t d _).
Qed.

(** One operation on an open stream whose subscribers are no RTSP sessions. *)
Lemma step_spec (s s' : stream track T) m o evs :
  ma (nonRTSPReaders s) = Some m →
  (∀ r, r ∈ m → isPathRTSPSession r = false) →
  step rangeOrder s o = Some (s', evs) →
  ∃ m', ma (nonRTSPReaders s') = Some m'
        ∧ (∀ r, r ∈ m' → isPathRTSPSession r = false)
        ∧ length (streamTracks s') = length (streamTracks s)
        ∧ (∀ r, bool_decide (r ∈ m') = subscribes r o (bool_decide (r ∈ m)))
        ∧ (∀ r, received r evs = match o with
                                 | OpWriteData d => if bool_decide (r ∈ m) then [d] else []
                                 | _ => []
                                 end).
Proof.
  intros Hma Hnortsp. destruct o as [r'|r'|d]; simpl.
  - unfold stream_readerAdd, streamNonRTSPReadersMap_add.
    destruct (isPathRTSPSession r') eqn:Hr'; simpl.
    + intros [= <- <-]. exists m. split_and!; [done..| |done].
      intros r. destruct (decide (r' = r)) as [<-|_]; [|done].
      rewrite Hr'. simpl. apply bool_decide_eq_false. intros Hin.
      apply Hnortsp in Hin. congruence.
    + rewrite Hma. simpl. intros [= <- <-]. exists ({[r']} ∪ m).
      split_and!; [done| |done| |done].
      * intros r [->%elem_of_singleton|Hin]%elem_of_union; auto.
      * intros r. destruct (decide (r' = r)) as [<-|Hne].
        -- rewrite Hr'. simpl. apply bool_decide_eq_true.
           by apply elem_of_union_l, elem_of_singleton.
        -- apply bool_decide_ext. rewrite elem_of_union, elem_of_singleton.
           split; [|by right]. by intros [->|Hin].
  - unfold stream_readerRemove, streamNonRTSPReadersMap_remove.
    destruct (isPathRTSPSession r') eqn:Hr'; simpl.
    + intros [= <- <-]. exists m. split_and!; [done..| |done].
      intros r. destruct (decide (r' = r)) as [<-|_]; [|done].
      apply bool_decide_eq_false. intros Hin. apply Hnortsp in Hin. congruence.
    + rewrite Hma. intros [= <- <-]. exists (m ∖ {[r']}).
      split_and!; [done| |done| |done].
      * intros r [Hin _]%elem_of_difference. auto.
      * intros r. destruct (decide (r' = r)) as [<-|Hne].
        -- apply bool_decide_eq_false.
           rewrite elem_of_difference, elem_of_singleton. by intros [_ Hnot].
        -- apply bool_decide_ext. rewrite elem_of_difference, elem_of_singleton.
           split; [by intros [Hin _]|]. intros Hin. split; [done|congruence].
  - intros Hw. destruct (stream_writeData_spec _ _ _ _ _ Hma Hw) as (Hsame & Hlen & Hrec).
    exists m. rewrite Hsame. by split_and!.
Qed.

Lemma step_total (s : stream track T) m o :
  ma (nonRTSPReaders s) = Some m →
  (∀ d, o = OpWriteData d → (0 ≤ getTrackID d < Z.of_nat (length (streamTracks s)))%Z) →
  is_Some (step rangeOrder s o).
Proof.
  intros Hma Hrange. destruct o as [r'|r'|d]; simpl.
  - unfold stream_readerAdd, streamNonRTSPReadersMap_add.
    destruct (isPathRTSPSession r'); [done|]. by rewrite Hma.
  - done.
  - apply stream_writeData_total. by apply Hrange.
Qed.

Lemma run_app (s : stream track T) ops1 ops2 :
  run rangeOrder s (ops1 ++ ops2)
  = '(s1, e1) ← run rangeOrder s ops1;
    '(s2, e2) ← run rangeOrder s1 ops2;
    Some (s2, e1 ++ e2).
Proof.
  revert s. induction ops1 as [|o rest IH]; intros s; simpl.
  - by destruct (run rangeOrder s ops2) as [[s2 e2]|].
  - destruct (step rangeOrder s o) as [[s1 e1]|]; [simpl|done].
    rewrite IH. destruct (run rangeOrder s1 rest) as [[s2 e2]|]; [simpl|done].
    destruct (run rangeOrder s2 ops2) as [[s3 e3]|]; [simpl|done].
    by rewrite (assoc_L (++)).
Qed.

(** A sequence of operations whose writes name existing tracks runs to its
    end; every reader has then received the units written while it was
    subscribed, in write order. *)
Lemma run_spec (ops : list op) (s : stream track T) m :
  ma (nonRTSPReaders s) = Some m →
  (∀ r, r ∈ m → isPathRTSPSession r = false) →
  (∀ d, OpWriteData d ∈ ops →
        (0 ≤ getTrackID d < Z.of_nat (length (streamTracks s)))%Z) →
  ∃ s' evs m',
    run rangeOrder s ops = Some (s', evs)
    ∧ ma (nonRTSPReaders s') = Some m'
    ∧ (∀ r, r ∈ m' → isPathRTSPSession r = false)
    ∧ length (streamTracks s') = length (streamTracks s)
    ∧ (∀ r, bool_decide (r ∈ m') = subscribed_from (bool_decide (r ∈ m)) r ops)
    ∧ (∀ r, received r evs = expected_from (bool_decide (r ∈ m)) r ops).
Proof.
  revert s m. induction ops as [|o rest IH]; intros s m Hma Hnortsp Hrange.
  - exists s, [], m. by split_and!.
  - destruct (step_total s m o Hma) as [[s1 e1] Hstep].
    { intros d ->. apply Hrange. left. }
    destruct (step_spec _ _ _ _ _ Hma Hnortsp Hstep)
      as (m1 & Hma1 & Hnortsp1 & Hlen1 & Hsub1 & Hrec1).
    destruct (IH s1 m1 Hma1 Hnortsp1) as (s2 & e2 & m2 & Hrun & Hma2 & Hnortsp2 & Hlen2 & Hsub2 & Hrec2).
    { intros d Hd. rewrite Hlen1. apply Hrange. by right. }
    exists s2, (e1 ++ e2), m2. simpl. rewrite Hstep. simpl. rewrite Hrun. simpl.
    split_and!; [done..|congruence| |].
    + intros r. rewrite Hsub2, Hsub1. done.
    + intros r. rewrite received_app, Hrec1, Hrec2, Hsub1.
      by destruct o.
Qed.

(** Without a later [readerAdd] of it, a reader that is not subscribed
    receives nothing. *)
Lemma expected_from_unsubscribed r (ops : list op) :
  OpReaderAdd r ∉ ops → expected_from false r ops = [].
Proof.
  induction ops as [|o rest IH]; [done|].
  intros Hnotin. apply not_elem_of_cons in Hnotin as [Hne Hrest].
  destruct o as [r'|r'|d]; simpl.
  - destruct (decide (r' = r)) as [->|_]; [done|]. by apply IH.
  - destruct (decide (r' = r)) as [->|_]; by apply IH.
  - by apply IH.
Qed.

Lemma subscribed_from_app b r (ops1 ops2 : list op) :
  subscribed_from b r (ops1 ++ ops2) = subscribed_from (subscribed_from b r ops1) r ops2.
Proof. apply foldl_app. Qed.

Lemma expected_from_app b r (ops1 ops2 : list op) :
  expected_from b r (ops1 ++ ops2)
  = expected_from b r ops1 ++ expected_from (subscribed_from b r ops1) r ops2.
Proof.
  revert b. induction ops1 as [|o rest IH]; intros b; [done|].
  destruct o as [r'|r'|d]; simpl; rewrite IH; [done..|].
  by rewrite (assoc_L (++)).
Qed.

Lemma expected_from_rtsp r (ops : list op) :
  isPathRTSPSession r = true → expected_from false r ops = [].
Proof.
  intros Hr. induction ops as [|o rest IH]; [done|].
  destruct o as [r'|r'|d]; simpl; [| |done].
  - destruct (decide (r' = r)) as [->|_]; [|done]. by rewrite Hr.
  - by destruct (decide (r' = r)).
Qed.

(** On a stream made by [newStream], a sequence of operations whose writes
    name tracks of the description runs to its end. *)
Lemma run_from_new (newStreamTrack : track → bool → T + error)
    tracks gen (s : stream track T) (ops : list op) :
  newStream newStreamTrack tracks gen = inl s →
  (∀ d, OpWriteData d ∈ ops → (0 ≤ getTrackID d < Z.of_nat (length tracks))%Z) →
  ∃ s' evs m',
    run rangeOrder s ops = Some (s', evs)
    ∧ ma (nonRTSPReaders s') = Some m'
    ∧ (∀ r, r ∈ m' → isPathRTSPSession r = false)
    ∧ length (streamTracks s') = length tracks
    ∧ (∀ r, bool_decide (r ∈ m') = subscribed r ops)
    ∧ (∀ r, received r evs = expected r ops).
Proof.
  unfold newStream. simpl.
  destruct (newStreamTracks newStreamTrack tracks gen) as [sts|err] eqn:Hloop; [|done].
  intros [= <-] Hrange.
  apply newStreamTracks_inl, Forall2_length in Hloop.
  destruct (run_spec ops (MkStream newStreamNonRTSPReadersMap (NewServerStream tracks) sts) ∅)
    as (s' & evs & m' & Hrun & Hma & Hnortsp & Hlen & Hsub & Hrec).
  - done.
  - intros r Hin. by apply not_elem_of_empty in Hin.
  - simpl. by rewrite <- Hloop.
  - exists s', evs, m'. simpl in Hlen. split_and!; [done..|congruence| |].
    + intros r. rewrite Hsub. by rewrite bool_decide_false by apply not_elem_of_empty.
    + intros r. rewrite Hrec. by rewrite bool_decide_false by apply not_elem_of_empty.
Qed.

(** C2 (as amended): take a stream made by [newStream] and any sequence of
    [readerAdd], [readerRemove] and [writeData] whose units carry the id of a
    track of the stream, with any order of iteration over the map.  The
    sequence runs to its end; every [writeData] calls [onReaderData] exactly
    once on each reader subscribed at that moment (which is no RTSP session)
    and on no other reader; every reader receives the units written while it
    was subscribed, in write order; and after a [readerRemove] of a reader,
    no later [writeData] calls it unless it was added again. *)
Theorem stream_fanout (newStreamTrack : track → bool → T + error)
    tracks gen (s : stream track T) (ops : list op) :
  newStream newStreamTrack tracks gen = inl s →
  (∀ d, OpWriteData d ∈ ops → (0 ≤ getTrackID d < Z.of_nat (length tracks))%Z) →
  ∃ s' evs,
    run rangeOrder s ops = Some (s', evs)
    ∧ (∀ r, received r evs = expected r ops)
    ∧ (∀ r, isPathRTSPSession r = true → received r evs = [])
    ∧ (∀ pre d post, ops = pre ++ OpWriteData d :: post →
         ∃ s1 e1 s2 e2,
           run rangeOrder s pre = Some (s1, e1)
           ∧ stream_writeData rangeOrder s1 d = Some (s2, e2)
           ∧ ∀ r, received r e2 = if subscribed r pre then [d] else [])
    ∧ (∀ pre r post, ops = pre ++ OpReaderRemove r :: post →
         OpReaderAdd r ∉ post →
         ∃ s1 e1 s2 e2,
           run rangeOrder s (pre ++ [OpReaderRemove r]) = Some (s1, e1)
           ∧ run rangeOrder s1 post = Some (s2, e2)
           ∧ received r e2 = []).
Proof.
  intros Hnew Hrange.
  destruct (run_from_new _ _ _ _ _ Hnew Hrange)
    as (s' & evs & m' & Hrun & _ & _ & _ & _ & Hrec).
  exists s', evs. split_and!; [done|done| | |].
  - intros r Hr. rewrite Hrec. by apply expected_from_rtsp.
  - intros pre d post ->.
    destruct (run_from_new _ _ _ _ pre Hnew)
      as (s1 & e1 & m1 & Hrun1 & Hma1 & _ & Hlen1 & Hsub1 & _).
    { intros d' Hd'. apply Hrange, elem_of_app. by left. }
    destruct (stream_writeData_total s1 d) as [[s2 e2] Hw].
    { rewrite Hlen1. apply Hrange, elem_of_app. right. left. }
    exists s1, e1, s2, e2. split_and!; [done..|].
    intros r. destruct (stream_writeData_spec _ _ _ _ _ Hma1 Hw) as (_ & _ & Hcall).
    by rewrite Hcall, Hsub1.
  - intros pre r post -> Hnoadd.
    destruct (run_from_new _ _ _ _ (pre ++ [OpReaderRemove r]) Hnew)
      as (s1 & e1 & m1 & Hrun1 & Hma1 & Hnortsp1 & Hlen1 & Hsub1 & _).
    { intros d' Hd'. apply Hrange. apply elem_of_app in Hd' as [Hd'|Hd'].
      - apply elem_of_app. by left.
      - apply list_elem_of_singleton in Hd'. done. }
    destruct (run_spec post s1 m1 Hma1 Hnortsp1)
      as (s2 & e2 & m2 & Hrun2 & _ & _ & _ & _ & Hrec2).
    { intros d' Hd'. rewrite Hlen1. apply Hrange, elem_of_app. right. by right. }
    exists s1, e1, s2, e2. split_and!; [done..|].
    rewrite Hrec2, Hsub1. unfold subscribed. rewrite subscribed_from_app. simpl.
    destruct (decide (r = r)); [|done].
    by apply expected_from_unsubscribed.
Qed.

End StreamFanout.

(** The operations [exOps]: the first unit reaches the subscribed reader and
    not the RTSP session, the second unit reaches nobody. *)
Example stream_run_exOps :
  Stream.run elements Stream.exStream Stream.exOps
  = Some (Stream.exStream,
          [Stream.EvOnReaderData Stream.exReader Stream.exUnit1]).
Proof. vm_compute. reflexivity. Qed.

(** C2, an instance: the operations [exOps] on the one-track stream. *)
Lemma stream_fanout_witness :
  ∃ s' evs,
    Stream.run elements Stream.exStream Stream.exOps = Some (s', evs)
    ∧ ∀ r, Stream.received r evs = Stream.expected r Stream.exOps.
Proof.
  destruct (stream_fanout elements (λ m, reflexivity (elements m))
              Stream.exNewStreamTrack [0] false Stream.exStream Stream.exOps eq_refl)
    as (s' & evs & Hrun & Hrec & _).
  - intros d Hd. unfold Stream.exOps in Hd.
    repeat (apply elem_of_cons in Hd as [Hd|Hd];
            [inversion Hd; subst; simpl; lia || done|]).
    by apply elem_of_nil in Hd.
  - by exists s', evs.
Defined.

(** C2 (as stated) fails twice.  A reader that was removed and added again is
    called by a later [writeData]; and a [writeData] of a unit for a track the
    stream does not have panics before it calls any reader. *)
Lemma stream_fanout_counterexample :
  (∃ s', Stream.run elements Stream.exStream
           [ Stream.OpReaderAdd Stream.exReader;
             Stream.OpReaderRemove Stream.exReader;
             Stream.OpReaderAdd Stream.exReader;
             Stream.OpWriteData Stream.exUnit1 ]
         = Some (s', [Stream.EvOnReaderData Stream.exReader Stream.exUnit1]))
  ∧ Stream.run elements Stream.exStream
      [ Stream.OpReaderAdd Stream.exReader;
        Stream.OpWriteData Stream.exUnitNoTrack ] = None.
Proof. split; [eexists|]; vm_compute; reflexivity. Qed.

(* ===================================================================== *)
(** * Properties of the HLS static source *)
(* ===================================================================== *)

Section HLSSourceProperties.
Import HLSSource.

Variable ur : string.
Variable retryPause : Duration.

Lemma runCallbacks_app l cbs1 cbs2 :
  runCallbacks l (cbs1 ++ cbs2)
  = ((runCallbacks (runCallbacks l cbs1).1 cbs2).1,
     (runCallbacks l cbs1).2 ++ (runCallbacks (runCallbacks l cbs1).1 cbs2).2).
Proof.
  revert l. induction cbs1 as [|cb rest IH]; intros l; simpl.
  - by destruct (runCallbacks l cbs2).
  - destruct (runCallback l cb) as [l1 e1]. rewrite IH.
    destruct (runCallbacks l1 rest) as [l2 e2]. simpl.
    destruct (runCallbacks l2 cbs2) as [l3 e3]. simpl.
    by rewrite (assoc_L (++)).
Qed.

(** The callbacks never tell the path that the source is not ready. *)
Lemma runCallbacks_no_notReady l cbs :
  EvOnSourceStaticSetNotReady ∉ (runCallbacks l cbs).2.
Proof.
  revert l. induction cbs as [|cb rest IH]; intros l; simpl.
  - apply not_elem_of_nil.
  - destruct (runCallback l cb) as [l1 e1] eqn:Hcb.
    specialize (IH l1). destruct (runCallbacks l1 rest) as [l2 e2]. simpl in *.
    rewrite elem_of_app. intros [Hin|Hin]; [|done].
    destruct cb as [v a res|isVideo payload]; simpl in Hcb.
    + unfold onTracks in Hcb. destruct (Err res); injection Hcb as <- <-;
        repeat (apply elem_of_cons in Hin as [Hin|Hin]; [done|]);
        by apply elem_of_nil in Hin.
    + injection Hcb as <- <-. unfold onFrame in Hin.
      destruct (stream l);
        repeat (apply elem_of_cons in Hin as [Hin|Hin]; [done|]);
        by apply elem_of_nil in Hin.
Qed.

(** Where an element of the concatenation of two lists lies. *)
Lemma app_eq_mid {A} (l1 l2 pre post : list A) (x : A) :
  l1 ++ l2 = pre ++ x :: post →
  (∃ post1, l1 = pre ++ x :: post1 ∧ post = post1 ++ l2)
  ∨ (∃ pre2, pre = l1 ++ pre2 ∧ l2 = pre2 ++ x :: post).
Proof.
  revert pre. induction l1 as [|y l1 IH]; intros pre; simpl.
  - intros ->. right. by exists pre.
  - destruct pre as [|z pre]; simpl.
    + intros [= -> <-]. left. by exists l1.
    + intros [= -> Heq].
      destruct (IH _ Heq) as [(post1 & -> & ->)|(pre2 & -> & ->)].
      * left. by exists post1.
      * right. by exists pre2.
Qed.

Lemma filter_eq_not_elem_of (x : event) (l : list event) :
  x ∉ l → filter (λ e, e = x) l = [].
Proof.
  induction l as [|y l IH]; [done|].
  intros [Hne Hnotin]%not_elem_of_cons.
  rewrite filter_cons_False by congruence. by apply IH.
Qed.

Lemma filter_false_nil (P : event → bool) (l : list event) :
  Forall (λ ev, P ev = false) l → filter (λ ev, P ev = true) l = [].
Proof.
  induction 1 as [|ev l Hev Hl IH]; [done|].
  rewrite filter_cons_False; [done|]. by rewrite Hev.
Qed.

Lemma Exists_filter_length (P : event → bool) (evs : list event) :
  Exists (λ ev, P ev = true) evs → 0 < length (filter (λ ev, P ev = true) evs).
Proof.
  induction 1 as [ev evs Hev|ev evs Hex IH].
  - rewrite filter_cons_True by done. simpl. lia.
  - destruct (decide (P ev = true)) as [Hev|Hev].
    + rewrite filter_cons_True by done. simpl. lia.
    + by rewrite filter_cons_False by done.
Qed.

Lemma streamSetBy_trans c1 c2 c3 (l1 l2 : list event) :
  streamSetBy c1 c2 l1 → streamSetBy c2 c3 l2 → streamSetBy c1 c3 (l1 ++ l2).
Proof.
  intros H1 [[-> H2]|(p1 & p2 & tr & -> & H2)].
  - destruct H1 as [[-> H1]|(p1 & p2 & tr & -> & H1)].
    + left. split; [done|]. by apply Forall_app.
    + right. exists p1, (p2 ++ l2), tr. split.
      * by rewrite <- (assoc_L (++)).
      * by apply Forall_app.
  - right. exists (l1 ++ p1), p2, tr. split; [|done].
    by rewrite <- (assoc_L (++)).
Qed.

Lemma framesServed_app c1 c2 c3 (l1 l2 : list event) :
  framesServed c1 c2 l1 → framesServed c2 c3 l2 → framesServed c1 c3 (l1 ++ l2).
Proof.
  intros [H1 F1] [H2 F2]. split; [by eapply streamSetBy_trans|].
  intros pre st trackID payload post Heq.
  apply app_eq_mid in Heq as [(post1 & -> & ->)|(pre2 & -> & Hl2)].
  - by eapply F1.
  - eapply streamSetBy_trans; [done|]. by eapply F2.
Qed.

(** Events that neither are an accepted [OnSourceStaticSetReady] nor hand a
    frame to a stream leave the variable [stream] as it is. *)
Lemma framesServed_neutral c (evs : list event) :
  Forall (λ ev, isReadyAccepted ev || isStreamOnFrame ev = false) evs →
  framesServed c c evs.
Proof.
  intros Hevs. split.
  - left. split; [done|]. eapply Forall_impl; [done|].
    by intros ev [? _]%orb_false_iff.
  - intros pre st trackID payload post ->.
    apply Forall_app in Hevs as [_ Hevs]. by apply Forall_cons in Hevs as [? _].
Qed.

Lemma runCallback_framesServed l cb :
  framesServed (stream l) (stream (runCallback l cb).1) (runCallback l cb).2.
Proof.
  destruct cb as [v a [so err]|isVideo frame]; simpl.
  - unfold onTracks. simpl. destruct err as [err|]; simpl.
    + apply framesServed_neutral. by repeat constructor.
    + split.
      * right. by exists [], [], (appendTrack (appendTrack [] v) a).
      * intros pre st trackID payload post Heq.
        by destruct pre as [|? [|? [|? [|? ?]]]]; simplify_eq/=.
  - unfold onFrame. destruct (stream l) as [s0|].
    + split.
      * left. split; [done|]. by repeat constructor.
      * intros pre st trackID payload post Heq.
        destruct pre as [|? [|? [|? ?]]]; simplify_eq/=.
        left. split; [done|]. by repeat constructor.
    + apply framesServed_neutral. constructor.
Qed.

(** The closures keep the trace and the variable [stream] in step. *)
Lemma runCallbacks_framesServed l cbs :
  framesServed (stream l) (stream (runCallbacks l cbs).1) (runCallbacks l cbs).2.
Proof.
  revert l. induction cbs as [|cb rest IH]; intros l; simpl.
  - apply framesServed_neutral. constructor.
  - pose proof (runCallback_framesServed l cb) as H1.
    destruct (runCallback l cb) as [l1 e1]. specialize (IH l1).
    destruct (runCallbacks l1 rest) as [l2 e2]. simpl in *.
    by eapply framesServed_app.
Qed.

(** The events of an attempt: everything before the deferred function, which
    holds no not-ready notification and over which the variable [stream]
    follows the answers of the path, and then the deferred function on the
    final value of the variables. *)
Lemma runInner_body (a : attempt) :
  ∃ body l,
    (runInner ur a).1 = body ++ runInner_deferred l
    ∧ (EvOnSourceStaticSetNotReady ∉ body)
    ∧ framesServed None (stream l) body.
Proof.
  unfold runInner.
  pose proof (runCallbacks_no_notReady locals0 (callbacks a)) as Hno1.
  pose proof (runCallbacks_framesServed locals0 (callbacks a)) as Hf1.
  destruct (runCallbacks locals0 (callbacks a)) as [l1 e1]. simpl in *.
  destruct (attemptEnd a) as [err|late]; simpl.
  - eexists (EvNewClient ur :: e1 ++ [EvClientWait; Log _]), l1. split_and!.
    + simpl. by rewrite <- (assoc_L (++)).
    + rewrite not_elem_of_cons, elem_of_app. split; [done|].
      intros [Hin|Hin]; [done|].
      repeat (apply elem_of_cons in Hin as [Hin|Hin]; [done|]).
      by apply elem_of_nil in Hin.
    + apply (framesServed_app None None _ [EvNewClient ur]);
        [apply framesServed_neutral; by repeat constructor|].
      apply (framesServed_app None (stream l1)); [done|].
      apply framesServed_neutral. by repeat constructor.
  - pose proof (runCallbacks_no_notReady l1 late) as Hno2.
    pose proof (runCallbacks_framesServed l1 late) as Hf2.
    destruct (runCallbacks l1 late) as [l2 e2]. simpl in *.
    exists (EvNewClient ur :: e1 ++ [EvCtxDone; EvClientClose] ++ e2 ++ [EvClientWait]), l2.
    split_and!.
    + simpl. rewrite <- !(assoc_L (++)). simpl. by rewrite <- !(assoc_L (++)).
    + rewrite not_elem_of_cons, !elem_of_app. split; [done|].
      intros [Hin|[Hin|[Hin|Hin]]]; try done;
        repeat (apply elem_of_cons in Hin as [Hin|Hin]; [done|]);
        by apply elem_of_nil in Hin.
    + apply (framesServed_app None None _ [EvNewClient ur]);
        [apply framesServed_neutral; by repeat constructor|].
      apply (framesServed_app None (stream l1)); [done|].
      apply (framesServed_app (stream l1) (stream l1));
        [apply framesServed_neutral; by repeat constructor|].
      apply (framesServed_app (stream l1) (stream l2)); [done|].
      apply framesServed_neutral. by repeat constructor.
Qed.

(** C10: in one attempt of the HLS source, with a path whose answers without
    an error carry the stream, [OnSourceStaticSetNotReady] is called exactly
    when some call of [OnSourceStaticSetReady] of the attempt returned without
    error; it is then called once, by the deferred function, after every such
    call and after everything else of the attempt except closing the RTCP
    senders.  The number of not-ready notifications is therefore the number
    of accepted ready notifications as long as that is at most one, and one
    when the path accepted more. *)
Theorem hls_notReady_iff_ready (a : attempt) :
  Forall answerWellFormed (runInner ur a).1 →
  (EvOnSourceStaticSetNotReady ∈ (runInner ur a).1
   ↔ Exists (λ ev, isReadyAccepted ev = true) (runInner ur a).1)
  ∧ (∃ body,
       (EvOnSourceStaticSetNotReady ∉ body)
       ∧ ((Exists (λ ev, isReadyAccepted ev = true) body
           ∧ (runInner ur a).1
             = body ++ [EvOnSourceStaticSetNotReady; EvRTCPSendersClose])
          ∨ (Forall (λ ev, isReadyAccepted ev = false) body
             ∧ (runInner ur a).1 = body)))
  ∧ length (filter (λ e, e = EvOnSourceStaticSetNotReady) (runInner ur a).1)
    = Nat.min 1 (length (filter (λ ev, isReadyAccepted ev = true) (runInner ur a).1)).
Proof.
  intros Hwf.
  destruct (runInner_body a) as (body & l & Hevs & Hbody & [Hset _]).
  rewrite Hevs in *. apply Forall_app in Hwf as [Hwf _].
  unfold runInner_deferred. destruct (stream l) as [st|].
  - assert (Exists (λ ev, isReadyAccepted ev = true) body) as Hex.
    { destruct Hset as [[? _]|(p1 & p2 & tr & -> & _)]; [done|].
      apply Exists_app. right. by left. }
    split_and!.
    + split; intros _; [apply Exists_app; by left|].
      apply elem_of_app. right. left.
    + exists body. split; [done|]. by left.
    + apply Exists_filter_length in Hex.
      rewrite !filter_app, !length_app, filter_eq_not_elem_of by done.
      rewrite (filter_cons_True (λ e, e = EvOnSourceStaticSetNotReady)) by done.
      rewrite !filter_cons_False by done. rewrite !filter_nil. cbn [length]. lia.
  - assert (Forall (λ ev, isReadyAccepted ev = false) body) as Hnone.
    { destruct Hset as [[_ ?]|(p1 & p2 & tr & -> & _)]; [done|].
      apply Forall_app in Hwf as [_ Hwf]. apply Forall_cons in Hwf as [Hwf _].
      by destruct (Hwf eq_refl) as [? [=]]. }
    rewrite (right_id_L [] (++)). split_and!.
    + split; [done|]. intros (ev & Hin & Hev)%Exists_exists.
      rewrite Forall_forall in Hnone. specialize (Hnone ev Hin). congruence.
    + exists body. split; [done|]. by right.
    + by rewrite filter_eq_not_elem_of, filter_false_nil by done.
Qed.

(** [runInner] returns [true] after an upstream error and [false] after a
    cancellation. *)
Lemma runInner_ok (a : attempt) :
  (runInner ur a).2 = match attemptEnd a with
                      | UpstreamError _ => true
                      | Cancelled _ => false
                      end.
Proof.
  unfold runInner. destruct (runCallbacks locals0 (callbacks a)) as [l1 e1].
  destruct (attemptEnd a) as [err|late]; [done|].
  by destruct (runCallbacks l1 late).
Qed.

(** Every attempt starts by creating a client for the URL. *)
Lemma runInner_starts (a : attempt) :
  ∃ tl, (runInner ur a).1 = EvNewClient ur :: tl.
Proof.
  unfold runInner. destruct (runCallbacks locals0 (callbacks a)) as [l1 e1].
  destruct (attemptEnd a) as [err|late]; [by eexists|].
  destruct (runCallbacks l1 late). by eexists.
Qed.

Lemma run_starts (r : round) (rest : list round) :
  ∃ tl, (run ur retryPause (r :: rest)).1 = EvNewClient ur :: tl.
Proof.
  simpl. destruct (runInner_starts (roundAttempt r)) as [tl Htl].
  destruct (runInner ur (roundAttempt r)) as [e1 ok]. simpl in Htl. subst e1.
  destruct ok; [|by eexists].
  destruct (roundPause r); [|by eexists].
  destruct (run ur retryPause rest). by eexists.
Qed.

(** Rounds without cancellation leave the loop running, and what follows
    them is appended. *)
Lemma run_not_cancelled (pre rest : list round) :
  Forall (λ r, cancelled r = false) pre →
  run ur retryPause (pre ++ rest)
  = ((run ur retryPause pre).1 ++ (run ur retryPause rest).1,
     (run ur retryPause rest).2)
  ∧ (run ur retryPause pre).2 = false.
Proof.
  induction 1 as [|r pre Hr Hpre [IHrun IHret]]; simpl.
  - by destruct (run ur retryPause rest).
  - unfold cancelled in Hr. pose proof (runInner_ok (roundAttempt r)) as Hok.
    destruct (runInner ur (roundAttempt r)) as [e1 ok]. simpl in Hok. subst ok.
    destruct (attemptEnd (roundAttempt r)) as [err|late]; [|done].
    destruct (roundPause r); [|done].
    rewrite IHrun. destruct (run ur retryPause pre) as [e2 ret2]. simpl in *.
    split; [|done]. by rewrite <- (assoc_L (++)).
Qed.

(** [run] returns only when a round observes cancellation. *)
Lemma run_returned (rounds : list round) :
  (run ur retryPause rounds).2 = true ↔ Exists (λ r, cancelled r = true) rounds.
Proof.
  induction rounds as [|r rest IH]; simpl.
  - rewrite Exists_nil. done.
  - rewrite Exists_cons. unfold cancelled at 1.
    pose proof (runInner_ok (roundAttempt r)) as Hok.
    destruct (runInner ur (roundAttempt r)) as [e1 ok]. simpl in Hok. subst ok.
    destruct (attemptEnd (roundAttempt r)) as [err|late]; [|by split; [left|]].
    destruct (roundPause r); [|by split; [left|]].
    destruct (run ur retryPause rest) as [e2 ret2]. simpl in *.
    rewrite IH. split; [by right|]. by intros [?|?].
Qed.

(** C8: the supervisor loop of the HLS source.  [run] returns only when a
    round observes cancellation, however many attempts end with an upstream
    error, and no call of the loop ends the server.  After an attempt that
    ended with an upstream error the loop waits [retryPause] and the next
    thing it does is a new attempt, unless cancellation is observed during
    the wait, in which case it returns.  When cancellation fires during an
    attempt, the client is closed, its end is awaited, and only then does the
    loop return. *)
Theorem hls_run_supervisor (rounds : list round) :
  ((run ur retryPause rounds).2 = true ↔ Exists (λ r, cancelled r = true) rounds)
  ∧ (∀ pre r post err,
       rounds = pre ++ r :: post →
       Forall (λ r, cancelled r = false) pre →
       attemptEnd (roundAttempt r) = UpstreamError err →
       match roundPause r with
       | PauseElapsed =>
           run ur retryPause rounds
           = ((run ur retryPause pre).1 ++ (runInner ur (roundAttempt r)).1
                ++ EvRetryPause retryPause :: (run ur retryPause post).1,
              (run ur retryPause post).2)
           ∧ (post ≠ [] → ∃ tl, (run ur retryPause post).1 = EvNewClient ur :: tl)
       | PauseCancelled =>
           run ur retryPause rounds
           = ((run ur retryPause pre).1 ++ (runInner ur (roundAttempt r)).1
                ++ [EvCtxDone; EvCtxCancel; EvWgDone],
              true)
       end)
  ∧ (∀ pre r post late,
       rounds = pre ++ r :: post →
       Forall (λ r, cancelled r = false) pre →
       attemptEnd (roundAttempt r) = Cancelled late →
       let before := runCallbacks locals0 (callbacks (roundAttempt r)) in
       let during := runCallbacks before.1 late in
       run ur retryPause rounds
       = ((run ur retryPause pre).1
            ++ EvNewClient ur :: before.2
            ++ [EvCtxDone; EvClientClose] ++ during.2 ++ [EvClientWait]
            ++ runInner_deferred during.1 ++ [EvCtxCancel; EvWgDone],
          true)).
Proof.
  split_and!.
  - apply run_returned.
  - intros pre r post err -> Hpre Hend.
    destruct (run_not_cancelled pre (r :: post) Hpre) as [-> _]. simpl.
    pose proof (runInner_ok (roundAttempt r)) as Hok. rewrite Hend in Hok.
    destruct (runInner ur (roundAttempt r)) as [e1 ok]. simpl in *. subst ok.
    destruct (roundPause r).
    + split.
      * destruct (run ur retryPause post) as [e2 ret2]. done.
      * intros Hpost. destruct post as [|r' post']; [done|]. apply run_starts.
    + done.
  - intros pre r post late -> Hpre Hend before during.
    destruct (run_not_cancelled pre (r :: post) Hpre) as [-> _]. simpl.
    subst before during. unfold runInner. rewrite Hend.
    destruct (runCallbacks locals0 (callbacks (roundAttempt r))) as [l1 e1]. simpl.
    destruct (runCallbacks l1 late) as [l2 e2]. simpl.
    do 2 f_equal. rewrite <- !(assoc_L (++)). simpl.
    by rewrite <- !(assoc_L (++)).
Qed.

End HLSSourceProperties.

(** C10, an instance: the attempt [exAttemptError], whose tracks the path
    accepts, ends with the not-ready notification. *)
Lemma hls_notReady_iff_ready_witness :
  Forall HLSSource.answerWellFormed
    (HLSSource.runInner "http://upstream/index.m3u8" HLSSource.exAttemptError).1
  ∧ HLSSource.EvOnSourceStaticSetNotReady
      ∈ (HLSSource.runInner "http://upstream/index.m3u8" HLSSource.exAttemptError).1.
Proof.
  assert (Forall HLSSource.answerWellFormed
            (HLSSource.runInner "http://upstream/index.m3u8"
               HLSSource.exAttemptError).1) as Hwf.
  { repeat constructor. simpl. eauto. }
  split; [exact Hwf|].
  apply (hls_notReady_iff_ready "http://upstream/index.m3u8" _ Hwf).
  apply Exists_cons_tl, Exists_cons_hd. reflexivity.
Defined.

(** C10, where the claim as written fails.  When the path accepts the tracks
    with an answer whose stream is nil, [OnSourceStaticSetReady] has returned
    without error and yet the attempt ends without the not-ready
    notification.  When the client announces its tracks twice and the path
    accepts them twice, two ready notifications are followed by one not-ready
    notification. *)
Lemma hls_ready_not_paired :
  HLSSource.runInner "http://upstream/index.m3u8" HLSSource.exAttemptNilStream
  = ([ HLSSource.EvNewClient "http://upstream/index.m3u8";
       HLSSource.EvOnSourceStaticSetReady [1] (HLSSource.ReadyRes None None);
       HLSSource.EvLog "[hls source] ready";
       HLSSource.EvRTCPSendersNew [1];
       HLSSource.EvClientWait;
       HLSSource.EvLog "[hls source] ERR: EOF" ],
     true)
  ∧ HLSSource.isReadyAccepted
      (HLSSource.EvOnSourceStaticSetReady [1] (HLSSource.ReadyRes None None)) = true
  ∧ (HLSSource.EvOnSourceStaticSetNotReady
       ∉ (HLSSource.runInner "http://upstream/index.m3u8"
            HLSSource.exAttemptNilStream).1)
  ∧ HLSSource.runInner "http://upstream/index.m3u8" HLSSource.exAttemptTwice
    = ([ HLSSource.EvNewClient "http://upstream/index.m3u8";
         HLSSource.EvOnSourceStaticSetReady [1] (HLSSource.ReadyRes (Some 7) None);
         HLSSource.EvLog "[hls source] ready";
         HLSSource.EvRTCPSendersNew [1];
         HLSSource.EvOnSourceStaticSetReady [1; 2] (HLSSource.ReadyRes (Some 7) None);
         HLSSource.EvLog "[hls source] ready";
         HLSSource.EvRTCPSendersNew [1; 2];
         HLSSource.EvClientWait;
         HLSSource.EvLog "[hls source] ERR: EOF";
         HLSSource.EvOnSourceStaticSetNotReady;
         HLSSource.EvRTCPSendersClose ],
       true)
  ∧ length (filter (λ ev, HLSSource.isReadyAccepted ev = true)
              (HLSSource.runInner "http://upstream/index.m3u8"
                 HLSSource.exAttemptTwice).1) = 2
  ∧ length (filter (λ ev, ev = HLSSource.EvOnSourceStaticSetNotReady)
              (HLSSource.runInner "http://upstream/index.m3u8"
                 HLSSource.exAttemptTwice).1) = 1.
Proof.
  split_and!; try reflexivity.
  apply (bool_decide_unpack _). reflexivity.
Qed.

(** The rounds [exRounds]: an upstream error, the pause, a second attempt
    that is cancelled. *)
Example hls_run_exRounds :
  HLSSource.run "http://upstream/index.m3u8" (5 * Second)%Z HLSSource.exRounds
  = ([ HLSSource.EvNewClient "http://upstream/index.m3u8";
       HLSSource.EvOnSourceStaticSetReady [1; 2] (HLSSource.ReadyRes (Some 7) None);
       HLSSource.EvLog "[hls source] ready";
       HLSSource.EvRTCPSendersNew [1; 2];
       HLSSource.EvRTCPSendersOnFrame 0 [];
       HLSSource.EvStreamOnFrame 7 0 [];
       HLSSource.EvClientWait;
       HLSSource.EvLog "[hls source] ERR: EOF";
       HLSSource.EvOnSourceStaticSetNotReady;
       HLSSource.EvRTCPSendersClose;
       HLSSource.EvRetryPause (5 * Second)%Z;
       HLSSource.EvNewClient "http://upstream/index.m3u8";
       HLSSource.EvCtxDone;
       HLSSource.EvClientClose;
       HLSSource.EvClientWait;
       HLSSource.EvCtxCancel;
       HLSSource.EvWgDone ],
     true).
Proof. reflexivity. Qed.

(* ===================================================================== *)
(** * Properties of the SRT session *)
(* ===================================================================== *)

Section SRTProperties.
Import SRT.

(** C9: with an empty passphrase [srtCheckPassphrase] returns nil for every
    connection request and asks the request nothing; with a non-empty
    passphrase it returns an error exactly when the connection is not
    encrypted or [SetPassphrase] fails. *)
Theorem srtCheckPassphrase_spec (connReq : ConnRequest) (passphrase : string) :
  (passphrase = "" → srtCheckPassphrase connReq passphrase = ([], None))
  ∧ (passphrase ≠ "" →
     (is_Some (srtCheckPassphrase connReq passphrase).2
      ↔ IsEncrypted connReq = false ∨ is_Some (SetPassphrase connReq passphrase))).
Proof.
  unfold srtCheckPassphrase. split.
  - intros ->. done.
  - intros Hne. destruct (decide (passphrase = "")) as [?|_]; [done|].
    destruct (IsEncrypted connReq); simpl.
    + destruct (SetPassphrase connReq passphrase) as [err|]; simpl.
      * split; [|by eauto]. intros _. right. by eauto.
      * split; [by intros [? ?]|]. intros [?|[? ?]]; done.
    + split; [|by eauto]. intros _. by left.
Qed.

Variable c : conn.
Variable e : env.
Variable streamID_unmarshal : string → streamID + error.

(** The events with which [run] ends once [runInner] has returned [err]. *)
Lemma run_trace :
  (run c e streamID_unmarshal).1
  = EvOnConnect :: (runInner c e streamID_unmarshal).1
      ++ [ EvCtxCancel; EvCloseConn;
           EvLog ("closed: " +:+ error_string (runInner c e streamID_unmarshal).2);
           EvOnDisconnect; EvWgDone ].
Proof.
  unfold run, defer, bind, emit. simpl.
  by rewrite <- !(assoc_L (++)).
Qed.

Lemma runInner_trace (req : srtNewConnReq) (sid : streamID) :
  chNew e = Some req →
  streamID_unmarshal (StreamId (connReq req)) = inl sid →
  let body := match mode sid with
              | streamIDModePublish => runPublish c e req sid
              | streamIDModeRead => runRead c e req sid
              end in
  runInner c e streamID_unmarshal
  = (body.1 ++ (if body.2.1 then [] else [EvResNil]), body.2.2).
Proof.
  intros Hreq Hsid body. unfold runInner, runInner2. rewrite Hreq, Hsid.
  fold body. unfold bind. simpl. by destruct (body.2.1).
Qed.

Lemma runPublish_rejected (req : srtNewConnReq) (sid : streamID) err terr :
  AddPublisher e (accessRequest c sid true) = inr err →
  errors_As_AuthenticationError err = Some terr →
  runPublish c e req sid
  = ([EvAddPublisher (accessRequest c sid true); EvSleep pauseAfterAuthError],
     (false, terr)).
Proof. intros Hadd Has. unfold runPublish. by rewrite Hadd, Has. Qed.

Lemma runRead_rejected (req : srtNewConnReq) (sid : streamID) err terr :
  AddReader e (accessRequest c sid false) = inr err →
  errors_As_AuthenticationError err = Some terr →
  runRead c e req sid
  = ([EvAddReader (accessRequest c sid false); EvSleep pauseAfterAuthError],
     (false, err)).
Proof. intros Hadd Has. unfold runRead. by rewrite Hadd, Has. Qed.

(** C3: when the path manager rejects the admission of a publisher or of a
    reader with an [AuthenticationError] (possibly wrapped), the session
    sleeps [pauseAfterAuthError], which is 2 seconds, right after the
    request and before it returns the error; the session then ends, having
    asked for admission once. *)
Theorem srt_auth_error_penalty (req : srtNewConnReq) (sid : streamID) err terr :
  chNew e = Some req →
  streamID_unmarshal (StreamId (connReq req)) = inl sid →
  errors_As_AuthenticationError err = Some terr →
  pauseAfterAuthError = 2000000000%Z
  ∧ (mode sid = streamIDModePublish →
     AddPublisher e (accessRequest c sid true) = inr err →
     runPublish c e req sid
     = ([EvAddPublisher (accessRequest c sid true); EvSleep (2 * Second)],
        (false, terr))
     ∧ (run c e streamID_unmarshal).1
       = [ EvOnConnect; EvAddPublisher (accessRequest c sid true);
           EvSleep (2 * Second); EvResNil; EvCtxCancel; EvCloseConn;
           EvLog ("closed: " +:+ error_string terr); EvOnDisconnect; EvWgDone ])
  ∧ (mode sid = streamIDModeRead →
     AddReader e (accessRequest c sid false) = inr err →
     runRead c e req sid
     = ([EvAddReader (accessRequest c sid false); EvSleep (2 * Second)],
        (false, err))
     ∧ (run c e streamID_unmarshal).1
       = [ EvOnConnect; EvAddReader (accessRequest c sid false);
           EvSleep (2 * Second); EvResNil; EvCtxCancel; EvCloseConn;
           EvLog ("closed: " +:+ error_string err); EvOnDisconnect; EvWgDone ]).
Proof.
  intros Hreq Hsid Has. split_and!; [done| |].
  - intros Hmode Hadd.
    pose proof (runPublish_rejected req sid err terr Hadd Has) as Hpub.
    split; [done|].
    rewrite run_trace, (runInner_trace req sid Hreq Hsid), Hmode, Hpub. done.
  - intros Hmode Hadd.
    pose proof (runRead_rejected req sid err terr Hadd Has) as Hrd.
    split; [done|].
    rewrite run_trace, (runInner_trace req sid Hreq Hsid), Hmode, Hrd. done.
Qed.

(** ** Admission and removal *)

Lemma readLoop_neutral st rs :
  Forall (λ ev, isMembership ev = false) (readLoop e st rs).1.
Proof.
  induction rs as [|us rest IH]; simpl.
  - by repeat constructor.
  - constructor; [done|]. apply Forall_app. split; [|exact IH].
    apply Forall_fmap. by apply Forall_true.
Qed.

Lemma runPublishReader_neutral sconn p :
  Forall (λ ev, isMembership ev = false) (runPublishReader c e sconn p).1.
Proof.
  unfold runPublishReader.
  destruct (NewReader e) as [err|]; simpl; [by repeat constructor|].
  destruct (ToStream e) as [medias|err]; simpl; [|by repeat constructor].
  destruct (StartPublisher e medias) as [st|err]; simpl; [|by repeat constructor].
  repeat (constructor; [done|]). apply readLoop_neutral.
Qed.

Lemma srtCheckPassphrase_neutral connReq passphrase :
  Forall (λ ev, isMembership ev = false) (srtCheckPassphrase connReq passphrase).1.
Proof.
  unfold srtCheckPassphrase.
  destruct (decide (passphrase = "")); [by constructor|].
  destruct (IsEncrypted connReq); simpl; [|by repeat constructor].
  destruct (SetPassphrase connReq passphrase); by repeat constructor.
Qed.

(** ** The publisher's steps on the stream *)

Lemma filter_steps_writes st (us : list Unit) :
  filter (λ ev, isPublishStep ev = true) (EvWriteUnit st <$> us) = EvWriteUnit st <$> us.
Proof.
  induction us as [|u rest IH]; [done|].
  rewrite fmap_cons, filter_cons_True by done. by rewrite IH.
Qed.

Lemma readLoop_steps st rs :
  filter (λ ev, isPublishStep ev = true) (readLoop e st rs).1
  = EvWriteUnit st <$> concat rs.
Proof.
  induction rs as [|us rest IH]; [done|]. simpl.
  rewrite filter_cons_False by done.
  by rewrite filter_app, filter_steps_writes, IH, fmap_app.
Qed.

(** Of the calls of [runPublishReader], [StartPublisher] comes before every
    unit written to the stream, and the units go to the stream that
    [StartPublisher] returned. *)
Lemma runPublishReader_steps sconn p :
  filter (λ ev, isPublishStep ev = true) (runPublishReader c e sconn p).1
  = match NewReader e, ToStream e with
    | None, inl medias =>
        EvStartPublisher p medias true
          :: match StartPublisher e medias with
             | inl st => EvWriteUnit st <$> concat (reads e)
             | inr _ => []
             end
    | _, _ => []
    end.
Proof.
  unfold runPublishReader.
  destruct (NewReader e) as [err|]; simpl; [done|].
  destruct (ToStream e) as [medias|err]; simpl; [|done].
  rewrite !filter_cons_False by done. rewrite filter_cons_True by done. f_equal.
  destruct (StartPublisher e medias) as [st|err]; simpl; [|done].
  apply readLoop_steps.
Qed.

Lemma srtCheckPassphrase_steps connReq passphrase :
  filter (λ ev, isPublishStep ev = true) (srtCheckPassphrase connReq passphrase).1 = [].
Proof.
  unfold srtCheckPassphrase.
  destruct (decide (passphrase = "")); [done|].
  destruct (IsEncrypted connReq); simpl; [|done].
  by destruct (SetPassphrase connReq passphrase).
Qed.

(** The first element of a filtered list splits the list. *)
Lemma filter_cons_split (l : list event) x rest :
  filter (λ ev, isPublishStep ev = true) l = x :: rest →
  ∃ l1 l2, l = l1 ++ x :: l2
           ∧ Forall (λ ev, isPublishStep ev = false) l1
           ∧ filter (λ ev, isPublishStep ev = true) l2 = rest.
Proof.
  induction l as [|y l IH]; [done|].
  destruct (decide (isPublishStep y = true)) as [Hy|Hy].
  - rewrite filter_cons_True by done. intros [= -> <-].
    exists [], l. by split_and!.
  - rewrite filter_cons_False by done. intros Hl.
    destruct (IH Hl) as (l1 & l2 & -> & Hl1 & Hl2).
    exists (y :: l1), l2. split_and!; [done| |done].
    constructor; [|done]. by destruct (isPublishStep y).
Qed.

#[local] Opaque runPublishReader.

(** [runPublish]: the request first; when it is granted, the removal is the
    last call and nothing in between touches the membership. *)
Lemma runPublish_shape (req : srtNewConnReq) (sid : streamID) :
  ∃ mid,
    Forall (λ ev, isMembership ev = false) mid
    ∧ (runPublish c e req sid).1
      = EvAddPublisher (accessRequest c sid true) :: mid
          ++ match AddPublisher e (accessRequest c sid true) with
             | inl p => [EvRemovePublisher p]
             | inr _ => []
             end.
Proof.
  unfold runPublish.
  destruct (AddPublisher e (accessRequest c sid true)) as [p|err]; simpl.
  - pose proof (srtCheckPassphrase_neutral (connReq req) (SRTPublishPassphrase p)) as Hchk.
    destruct (srtCheckPassphrase (connReq req) (SRTPublishPassphrase p)) as [e1 [err|]];
      simpl in *.
    { exists (e1 ++ []). split; [|done]. by rewrite (right_id_L [] (++)). }
    unfold exchangeRequestWithConn.
    destruct (chSetConn e) as [sconn|]; simpl.
    2:{ eexists. split; [|done]. apply Forall_app. split; [done|]. by repeat constructor. }
    pose proof (runPublishReader_neutral sconn p) as Hrd.
    destruct (runPublishReader c e sconn p) as [rt rerr]. simpl in Hrd.
    destruct (publishSelect e) as [|n]; simpl.
    + eexists. split; [|done]. apply Forall_app. split; [done|].
      repeat (constructor; [done|]). apply Forall_app. split; [done|].
      by repeat constructor.
    + eexists. split; [|done]. apply Forall_app. split; [done|].
      repeat (constructor; [done|]). apply Forall_app. split; [by apply Forall_take|].
      constructor; [done|]. apply Forall_app. split; [by apply Forall_drop|done].
  - destruct (errors_As_AuthenticationError err); simpl.
    + exists [EvSleep pauseAfterAuthError]. split; [by repeat constructor|done].
    + exists []. by split.
Qed.

Lemma runRead_shape (req : srtNewConnReq) (sid : streamID) :
  ∃ mid,
    Forall (λ ev, isMembership ev = false) mid
    ∧ (runRead c e req sid).1
      = EvAddReader (accessRequest c sid false) :: mid
          ++ match AddReader e (accessRequest c sid false) with
             | inl (p, _) => [EvRemoveReader p]
             | inr _ => []
             end.
Proof.
  unfold runRead.
  destruct (AddReader e (accessRequest c sid false)) as [[p st]|err]; simpl.
  - pose proof (srtCheckPassphrase_neutral (connReq req) (SRTReadPassphrase p)) as Hchk.
    destruct (srtCheckPassphrase (connReq req) (SRTReadPassphrase p)) as [e1 [err|]];
      simpl in *.
    { exists (e1 ++ []). split; [|done]. by rewrite (right_id_L [] (++)). }
    unfold exchangeRequestWithConn.
    destruct (chSetConn e) as [sconn|]; simpl.
    2:{ eexists. split; [|done]. apply Forall_app. split; [done|]. by repeat constructor. }
    destruct (FromStream e) as [err|]; simpl.
    { eexists. split; [|done]. apply Forall_app. split; [done|]. by repeat constructor. }
    destruct (readSelect e) as [|err]; simpl.
    + eexists. split; [|done]. apply Forall_app. split; [done|]. by repeat constructor.
    + eexists. split; [|done]. apply Forall_app. split; [done|]. by repeat constructor.
  - destruct (errors_As_AuthenticationError err); simpl.
    + exists [EvSleep pauseAfterAuthError]. split; [by repeat constructor|done].
    + exists []. by split.
Qed.

(** C1: a session that received a request with a valid stream ID asks for
    admission first.  When [AddPublisher] (for a reader, [AddReader]) grants
    it, the trace of [run] holds exactly one [RemovePublisher]
    ([RemoveReader]) on the path that was returned, after the admission and
    before [run] cancels the context and closes the connection, and no other
    admission or removal.  When admission is refused there is no removal. *)
Theorem srt_add_remove_matched (req : srtNewConnReq) (sid : streamID) :
  chNew e = Some req →
  streamID_unmarshal (StreamId (connReq req)) = inl sid →
  ∃ mid post,
    Forall (λ ev, isMembership ev = false) (mid ++ post)
    ∧ EvCtxCancel ∈ post
    ∧ (run c e streamID_unmarshal).1
      = match mode sid with
        | streamIDModePublish =>
            EvOnConnect :: EvAddPublisher (accessRequest c sid true) :: mid
              ++ match AddPublisher e (accessRequest c sid true) with
                 | inl p => EvRemovePublisher p :: post
                 | inr _ => post
                 end
        | streamIDModeRead =>
            EvOnConnect :: EvAddReader (accessRequest c sid false) :: mid
              ++ match AddReader e (accessRequest c sid false) with
                 | inl (p, _) => EvRemoveReader p :: post
                 | inr _ => post
                 end
        end.
Proof.
  intros Hreq Hsid.
  rewrite run_trace, (runInner_trace req sid Hreq Hsid).
  destruct (mode sid).
  - destruct (runRead_shape req sid) as (mid & Hmid & Htr).
    destruct (runRead c e req sid) as [tr [answerSent err]]. simpl in *. subst tr.
    exists mid, ((if answerSent then [] else [EvResNil])
                 ++ [ EvCtxCancel; EvCloseConn; EvLog ("closed: " +:+ error_string err);
                      EvOnDisconnect; EvWgDone ]).
    split_and!.
    + rewrite !Forall_app. split; [done|].
      split; [by destruct answerSent; repeat constructor|by repeat constructor].
    + apply elem_of_app. right. left.
    + f_equal. simpl. f_equal. rewrite <- !(assoc_L (++)). f_equal.
      by destruct (AddReader e (accessRequest c sid false)) as [[p st]|err'].
  - destruct (runPublish_shape req sid) as (mid & Hmid & Htr).
    destruct (runPublish c e req sid) as [tr [answerSent err]]. simpl in *. subst tr.
    exists mid, ((if answerSent then [] else [EvResNil])
                 ++ [ EvCtxCancel; EvCloseConn; EvLog ("closed: " +:+ error_string err);
                      EvOnDisconnect; EvWgDone ]).
    split_and!.
    + rewrite !Forall_app. split; [done|].
      split; [by destruct answerSent; repeat constructor|by repeat constructor].
    + apply elem_of_app. right. left.
    + f_equal. simpl. f_equal. rewrite <- !(assoc_L (++)). f_equal.
      by destruct (AddPublisher e (accessRequest c sid true)) as [p|err'].
Qed.

Ltac filter_steps :=
  repeat first
    [ rewrite filter_app
    | rewrite filter_cons_False by done
    | rewrite filter_nil
    | rewrite (right_id_L [] (++))
    | rewrite (left_id_L [] (++)) ].

Lemma runPublish_steps (req : srtNewConnReq) (sid : streamID) :
  filter (λ ev, isPublishStep ev = true) (runPublish c e req sid).1 = []
  ∨ ∃ p sconn,
      AddPublisher e (accessRequest c sid true) = inl p
      ∧ filter (λ ev, isPublishStep ev = true) (runPublish c e req sid).1
        = filter (λ ev, isPublishStep ev = true) (runPublishReader c e sconn p).1.
Proof.
  unfold runPublish.
  destruct (AddPublisher e (accessRequest c sid true)) as [p|err]; simpl.
  - pose proof (srtCheckPassphrase_steps (connReq req) (SRTPublishPassphrase p)) as Hchk.
    destruct (srtCheckPassphrase (connReq req) (SRTPublishPassphrase p)) as [e1 [err|]];
      simpl in *.
    { left. filter_steps. by rewrite Hchk. }
    unfold exchangeRequestWithConn.
    destruct (chSetConn e) as [sconn|]; simpl.
    2:{ left. filter_steps. by rewrite Hchk. }
    right. exists p, sconn. split; [done|].
    destruct (publishSelect e) as [|n]; simpl.
    + filter_steps. by rewrite Hchk.
    + filter_steps. rewrite Hchk. simpl.
      by rewrite <- filter_app, take_drop.
  - left. destruct (errors_As_AuthenticationError err); simpl; by filter_steps.
Qed.

Lemma runRead_steps (req : srtNewConnReq) (sid : streamID) :
  filter (λ ev, isPublishStep ev = true) (runRead c e req sid).1 = [].
Proof.
  unfold runRead.
  destruct (AddReader e (accessRequest c sid false)) as [[p st]|err]; simpl.
  - pose proof (srtCheckPassphrase_steps (connReq req) (SRTReadPassphrase p)) as Hchk.
    destruct (srtCheckPassphrase (connReq req) (SRTReadPassphrase p)) as [e1 [err|]];
      simpl in *.
    { filter_steps. by rewrite Hchk. }
    unfold exchangeRequestWithConn.
    destruct (chSetConn e) as [sconn|]; simpl.
    2:{ filter_steps. by rewrite Hchk. }
    destruct (FromStream e) as [err|]; simpl.
    { filter_steps. by rewrite Hchk. }
    destruct (readSelect e) as [|err]; simpl; filter_steps; by rewrite Hchk.
  - destruct (errors_As_AuthenticationError err); simpl; by filter_steps.
Qed.

Lemma run_steps :
  filter (λ ev, isPublishStep ev = true) (run c e streamID_unmarshal).1 = []
  ∨ ∃ sid p sconn,
      AddPublisher e (accessRequest c sid true) = inl p
      ∧ filter (λ ev, isPublishStep ev = true) (run c e streamID_unmarshal).1
        = filter (λ ev, isPublishStep ev = true) (runPublishReader c e sconn p).1.
Proof.
  rewrite run_trace. unfold runInner, runInner2.
  destruct (chNew e) as [req|]; simpl; [|by left].
  destruct (streamID_unmarshal (StreamId (connReq req))) as [sid|err]; simpl; [|by left].
  destruct (mode sid).
  - left. pose proof (runRead_steps req sid) as Hrd.
    destruct (runRead c e req sid) as [tr [[] err]]; simpl in *;
      filter_steps; by rewrite Hrd.
  - destruct (runPublish_steps req sid) as [Hpub|(p & sconn & Hadd & Hpub)].
    + left. destruct (runPublish c e req sid) as [tr [[] err]]; simpl in *;
        filter_steps; by rewrite Hpub.
    + right. exists sid, p, sconn. split; [done|].
      destruct (runPublish c e req sid) as [tr [[] err]]; simpl in *;
        filter_steps; by rewrite Hpub.
Qed.

(** C5: whenever the session writes a unit to a stream, the session was
    admitted as a publisher, [StartPublisher] was called before on the path
    it was admitted to, with the medias that [mpegts.ToStream] derived from
    the incoming MPEG-TS and with RTP packet generation on, nothing was
    written before that call, and the unit goes to the stream that
    [StartPublisher] returned. *)
Theorem srt_startPublisher_before_units pre st u post :
  (run c e streamID_unmarshal).1 = pre ++ EvWriteUnit st u :: post →
  ∃ sid p medias pre1 pre2,
    AddPublisher e (accessRequest c sid true) = inl p
    ∧ ToStream e = inl medias
    ∧ StartPublisher e medias = inl st
    ∧ pre = pre1 ++ EvStartPublisher p medias true :: pre2
    ∧ Forall (λ ev, isPublishStep ev = false) pre1.
Proof.
  intros Htr.
  assert (filter (λ ev, isPublishStep ev = true) (run c e streamID_unmarshal).1
          = filter (λ ev, isPublishStep ev = true) pre
              ++ EvWriteUnit st u :: filter (λ ev, isPublishStep ev = true) post)
    as Hproj.
  { rewrite Htr, filter_app. by rewrite filter_cons_True by done. }
  destruct run_steps as [Hnone|(sid & p & sconn & Hadd & Hsteps)].
  { rewrite Hnone in Hproj. by destruct (filter _ pre). }
  rewrite Hsteps, runPublishReader_steps in Hproj.
  destruct (NewReader e) as [err|]; [by destruct (filter _ pre)|].
  destruct (ToStream e) as [medias|err]; [|by destruct (filter _ pre)].
  destruct (filter (λ ev, isPublishStep ev = true) pre) as [|x rest] eqn:Hpre;
    [done|].
  injection Hproj as <- Hwrites.
  destruct (filter_cons_split _ _ _ Hpre) as (pre1 & pre2 & -> & Hpre1 & _).
  exists sid, p, medias, pre1, pre2. split_and!; [done|done| |done|done].
  destruct (StartPublisher e medias) as [st'|err]; [|by destruct rest].
  assert (EvWriteUnit st u ∈ EvWriteUnit st' <$> concat (reads e)) as Hin.
  { rewrite Hwrites. apply elem_of_app. right. left. }
  apply list_elem_of_fmap in Hin as (u' & [= -> ->] & _). done.
Qed.

End SRTProperties.

(** C3, an instance: the session [exEnvRejected]. *)
Lemma srt_auth_error_penalty_witness :
  (SRT.run SRT.exConn SRT.exEnvRejected SRT.exUnmarshal).1
  = [ SRT.EvOnConnect;
      SRT.EvAddPublisher
        (SRT.MkAccessRequest "cam1" "192.0.2.7" true "" "" SRT.AuthProtocolSRT 1 "");
      SRT.EvSleep 2000000000; SRT.EvResNil; SRT.EvCtxCancel; SRT.EvCloseConn;
      SRT.EvLog "closed: authentication failed"; SRT.EvOnDisconnect; SRT.EvWgDone ].
Proof.
  destruct (srt_auth_error_penalty SRT.exConn SRT.exEnvRejected SRT.exUnmarshal
              (SRT.MkNewConnReq (SRT.exConnRequest "publish:cam1"))
              (SRT.MkStreamID SRT.streamIDModePublish "cam1" "" "" "")
              (ErrAuthentication "authentication failed")
              (ErrAuthentication "authentication failed")
              eq_refl eq_refl eq_refl) as (_ & Hpub & _).
  destruct (Hpub eq_refl eq_refl) as [_ Htrace].
  exact Htrace.
Defined.

(** The session of a reader that is admitted and later terminated by the
    server: the deferred calls run in reverse order of their registration. *)
Example srt_run_exEnvRead :
  (SRT.run SRT.exConn SRT.exEnvRead SRT.exUnmarshal).1
  = [ SRT.EvOnConnect;
      SRT.EvAddReader
        (SRT.MkAccessRequest "cam1" "192.0.2.7" false "" "" SRT.AuthProtocolSRT 1 "");
      SRT.EvResConn; SRT.EvSetState SRT.connStateRead "cam1" "" 9;
      SRT.EvAsyncWriterNew 512; SRT.EvFromStream 5;
      SRT.EvLog "is reading from path 'cam1'"; SRT.EvOnRead;
      SRT.EvSconnSetReadDeadline 9 None; SRT.EvWriterStart; SRT.EvWriterStop;
      SRT.EvOnUnread; SRT.EvStreamRemoveReader 5; SRT.EvSconnClose 9;
      SRT.EvRemoveReader SRT.exPath;
      SRT.EvCtxCancel; SRT.EvCloseConn; SRT.EvLog "closed: terminated";
      SRT.EvOnDisconnect; SRT.EvWgDone ].
Proof. reflexivity. Qed.

(** C1, an instance: the publisher of [exEnvPublish] is removed from the path
    it was admitted to before its session closes. *)
Lemma srt_add_remove_matched_witness :
  ∃ mid post,
    Forall (λ ev, SRT.isMembership ev = false) (mid ++ post)
    ∧ SRT.EvCtxCancel ∈ post
    ∧ (SRT.run SRT.exConn SRT.exEnvPublish SRT.exUnmarshal).1
      = SRT.EvOnConnect
          :: SRT.EvAddPublisher
               (SRT.MkAccessRequest "cam1" "192.0.2.7" true "" "" SRT.AuthProtocolSRT 1 "")
          :: mid ++ SRT.EvRemovePublisher SRT.exPath :: post.
Proof.
  exact (srt_add_remove_matched SRT.exConn SRT.exEnvPublish SRT.exUnmarshal
           (SRT.MkNewConnReq (SRT.exConnRequest "publish:cam1"))
           (SRT.MkStreamID SRT.streamIDModePublish "cam1" "" "" "")
           eq_refl eq_refl).
Defined.

(** C5, an instance: in the session [exEnvPublish] the second unit is written
    after [StartPublisher] was called with the medias of the stream. *)
Lemma srt_startPublisher_before_units_witness :
  ∃ sid p pre1 pre2,
    SRT.AddPublisher SRT.exEnvPublish (SRT.accessRequest SRT.exConn sid true) = inl p
    ∧ [ SRT.EvOnConnect;
        SRT.EvAddPublisher (SRT.accessRequest SRT.exConn
                              (SRT.MkStreamID SRT.streamIDModePublish "cam1" "" "" "") true);
        SRT.EvResConn; SRT.EvSetState SRT.connStatePublish "cam1" "" 9;
        SRT.EvSconnSetReadDeadline 9 (Some (10 * Second)%Z); SRT.EvNewReader;
        SRT.EvToStream; SRT.EvStartPublisher SRT.exPath ["H264"] true;
        SRT.EvRead; SRT.EvWriteUnit 5 (SRT.MkUnit 0 0) ]
      = pre1 ++ SRT.EvStartPublisher p ["H264"] true :: pre2
    ∧ Forall (λ ev, SRT.isPublishStep ev = false) pre1.
Proof.
  destruct (srt_startPublisher_before_units SRT.exConn SRT.exEnvPublish SRT.exUnmarshal
              [ SRT.EvOnConnect;
                SRT.EvAddPublisher (SRT.accessRequest SRT.exConn
                   (SRT.MkStreamID SRT.streamIDModePublish "cam1" "" "" "") true);
                SRT.EvResConn; SRT.EvSetState SRT.connStatePublish "cam1" "" 9;
                SRT.EvSconnSetReadDeadline 9 (Some (10 * Second)%Z); SRT.EvNewReader;
                SRT.EvToStream; SRT.EvStartPublisher SRT.exPath ["H264"] true;
                SRT.EvRead; SRT.EvWriteUnit 5 (SRT.MkUnit 0 0) ]
              5 (SRT.MkUnit 0 (40 * Millisecond)%Z)
              [ SRT.EvRead; SRT.EvSconnClose 9; SRT.EvRemovePublisher SRT.exPath;
                SRT.EvCtxCancel; SRT.EvCloseConn; SRT.EvLog "closed: EOF";
                SRT.EvOnDisconnect; SRT.EvWgDone ]
              eq_refl)
    as (sid & p & medias & pre1 & pre2 & Hadd & Hts & _ & Hpre & Hpre1).
  injection Hts as <-.
  by exists sid, p, pre1, pre2.
Defined.

(* ===================================================================== *)
(** * Properties of the recorder's fmp4 output *)
(* ===================================================================== *)

Section RecordProperties.
Import Record.
Local Open Scope Z_scope.

Lemma initTracksFrom_length nextID (medias : list Media) :
  length (initTracksFrom nextID medias) = length medias.
Proof.
  revert nextID. induction medias as [|m rest IH]; intros nextID; [done|].
  simpl. by rewrite IH.
Qed.

Lemma initTracksFrom_lookup nextID (medias : list Media) (i : nat) (m : Media) :
  medias !! i = Some m →
  initTracksFrom nextID medias !! i
  = Some (MkInitTrack (nextID + Z.of_nat i) (timeScale (mediaFormat m))
                      (codecOf (mediaFormat m))).
Proof.
  revert nextID i. induction medias as [|m' rest IH]; intros nextID i; [done|].
  destruct i as [|i]; simpl.
  - intros [= ->]. by rewrite Z.add_0_r.
  - intros Hi. rewrite (IH _ _ Hi). do 2 f_equal. lia.
Qed.

Lemma initTracksFrom_IDs nextID (medias : list Media) :
  ID <$> initTracksFrom nextID medias
  = (λ i : nat, nextID + Z.of_nat i) <$> seq 0 (length medias).
Proof.
  revert nextID. induction medias as [|m rest IH]; intros nextID; [done|].
  simpl. rewrite Z.add_0_r. f_equal. rewrite IH, <- fmap_S_seq, <- list_fmap_compose.
  apply list_fmap_ext. intros _ i _. simpl. lia.
Qed.

(** C6: for a description with N medias the init of an fmp4 segment declares
    N tracks, with the IDs 1 to N in description order and with the time
    scale of the format of each media: 90000 for H.264 and H.265, the sample
    rate for MPEG4-Audio, G.711 and LPCM.  For the description of
    [TestAgent] these are the tracks the test expects. *)
Theorem fmp4_init_tracks (medias : list Media) :
  length (initTracks medias) = length medias
  ∧ ID <$> initTracks medias = (λ i : nat, 1 + Z.of_nat i) <$> seq 0 (length medias)
  ∧ (∀ (i : nat) m,
       medias !! i = Some m →
       ∃ t, initTracks medias !! i = Some t
            ∧ ID t = Z.of_nat i + 1
            ∧ TimeScale t = match mediaFormat m with
                            | H264 | H265 => 90000
                            | MPEG4Audio sr _ | G711 _ sr _ | LPCM _ sr _ => sr
                            end)
  ∧ initTracks testAgentDesc
    = [ MkInitTrack 1 90000 CodecH264;
        MkInitTrack 2 90000 CodecH265;
        MkInitTrack 3 44100 (CodecMPEG4Audio 44100 2);
        MkInitTrack 4 8000 (CodecLPCM 16 8000 1);
        MkInitTrack 5 44100 (CodecLPCM 16 44100 2) ].
Proof.
  unfold initTracks. split_and!.
  - apply initTracksFrom_length.
  - apply initTracksFrom_IDs.
  - intros i m Hi. eexists. split; [by apply initTracksFrom_lookup|].
    simpl. split; [lia|]. by destruct (mediaFormat m).
  - reflexivity.
Qed.

End RecordProperties.

(* ===================================================================== *)
(** * More on the stream: subscriptions, a closed stream, the bounds of
      [writeData] *)
(* ===================================================================== *)

Section StreamEdgeCases.
Import Stream.
Context {track T : Type} `{!StreamTrack T}.
Variable rangeOrder : gset reader → list reader.

(** X1: [readerAdd] and [readerRemove] treat the subscribers as a set.
    Adding a reader twice is adding it once, removing it twice is removing
    it once, removing a reader that was just added to a stream that did not
    have it gives the stream back, and neither operation does anything for
    an RTSP session. *)
Theorem stream_subscription_set (s : stream track T) (r : reader) :
  (stream_readerAdd s r ≫= (λ s1, stream_readerAdd s1 r)) = stream_readerAdd s r
  ∧ stream_readerRemove (stream_readerRemove s r) r = stream_readerRemove s r
  ∧ (∀ m s1, ma (nonRTSPReaders s) = Some m → r ∉ m →
             stream_readerAdd s r = Some s1 → stream_readerRemove s1 r = s)
  ∧ (isPathRTSPSession r = true →
     stream_readerAdd s r = Some s ∧ stream_readerRemove s r = s).
Proof.
  destruct s as [[m] rs sts].
  unfold stream_readerAdd, stream_readerRemove, streamNonRTSPReadersMap_add,
    streamNonRTSPReadersMap_remove.
  destruct (isPathRTSPSession r) eqn:Hr; simpl.
  - split_and!; try done. by intros m' s1 _ _ [= <-].
  - destruct m as [m|]; simpl.
    + split_and!; [| | |done].
      * by rewrite (assoc_L (∪)), (idemp_L (∪)).
      * do 3 f_equal. apply set_eq. intros x.
        rewrite !elem_of_difference. tauto.
      * intros m' s1 [= <-] Hnotin [= <-]. simpl.
        do 3 f_equal. apply set_eq. intros x.
        rewrite elem_of_difference, elem_of_union, elem_of_singleton.
        split; [by intros [[->|Hin] Hne]|].
        intros Hin. split; [by right|]. by intros ->.
    + split_and!; [done|done| |done]. by intros m' s1 [=].
Qed.

(** X2: a closed stream.  It reports no reader, [readerRemove] leaves it as
    it is, [readerAdd] of a reader that is no RTSP session panics (the map is
    nil), a [writeData] still runs the track and forwards its RTP packets
    but calls no reader, and the tracks are still those of the stream. *)
Theorem stream_closed_behaviour (s : stream track T) (r : reader) (d : data) :
  streamNonRTSPReadersMap_hasReaders (nonRTSPReaders (stream_close s)) = false
  ∧ stream_readerRemove (stream_close s) r = stream_close s
  ∧ stream_readerAdd (stream_close s) r
    = (if isPathRTSPSession r then Some (stream_close s) else None)
  ∧ stream_tracks (stream_close s) = stream_tracks s
  ∧ (is_Some (stream_writeData rangeOrder (stream_close s) d)
     ↔ is_Some (stream_writeData rangeOrder s d))
  ∧ (∀ s' evs, stream_writeData rangeOrder (stream_close s) d = Some (s', evs) →
               ∀ r', received r' evs = []).
Proof.
  unfold stream_readerAdd, stream_readerRemove, stream_writeData. simpl.
  split_and!; [done| | |done| |].
  - by destruct (isPathRTSPSession r).
  - by destruct (isPathRTSPSession r).
  - destruct (slice_index (streamTracks s) (getTrackID d)) as [t|]; simpl; [|done].
    do 2 destruct (onData t d _). simpl. split; by eauto.
  - intros s' evs.
    destruct (slice_index (streamTracks s) (getTrackID d)) as [t|]; simpl; [|done].
    destruct (onData t d _) as [t' pkts]. intros [= <- <-] r'.
    unfold streamNonRTSPReadersMap_writeData. simpl.
    rewrite (right_id_L [] (++)).
    induction pkts as [|pkt rest IH]; [done|]. exact IH.
Qed.

(** X3: the bounds and the footprint of [stream.writeData].  It panics
    exactly when the track id of the unit is negative or not below the number
    of tracks.  Otherwise it leaves the subscribers, the RTSP stream and every
    other track as they were, and its calls are the RTP packets for the RTSP
    stream, in the order [onData] left them and with the unit's track id and
    flag, followed by the calls of the readers. *)
Theorem stream_writeData_footprint (s : stream track T) (d : data) :
  (stream_writeData rangeOrder s d = None
   ↔ ¬ (0 ≤ getTrackID d < Z.of_nat (length (streamTracks s)))%Z)
  ∧ (∀ s' evs,
       stream_writeData rangeOrder s d = Some (s', evs) →
       nonRTSPReaders s' = nonRTSPReaders s
       ∧ rtspStream s' = rtspStream s
       ∧ length (streamTracks s') = length (streamTracks s)
       ∧ (∀ j, j ≠ Z.to_nat (getTrackID d) →
               streamTracks s' !! j = streamTracks s !! j)
       ∧ ∃ t pkts,
           slice_index (streamTracks s) (getTrackID d) = Some t
           ∧ onData t d (streamNonRTSPReadersMap_hasReaders (nonRTSPReaders s))
             = (default t (streamTracks s' !! Z.to_nat (getTrackID d)), pkts)
           ∧ evs = ((λ pkt, EvWritePacketRTP (getTrackID d) pkt (getPTSEqualsDTS d))
                      <$> pkts)
                   ++ streamNonRTSPReadersMap_writeData rangeOrder (nonRTSPReaders s) d).
Proof.
  split.
  - unfold stream_writeData, slice_index.
    destruct (Z.ltb_spec (getTrackID d) 0) as [Hneg|Hpos]; simpl.
    + split; [|done]. intros _. lia.
    + destruct (streamTracks s !! Z.to_nat (getTrackID d)) as [t|] eqn:Hlook; simpl.
      * destruct (onData t d _). split; [done|]. intros Hout. destruct Hout.
        apply lookup_lt_Some in Hlook. lia.
      * split; [|done]. intros _. apply lookup_ge_None in Hlook. lia.
  - intros s' evs. unfold stream_writeData.
    destruct (slice_index (streamTracks s) (getTrackID d)) as [t|] eqn:Hidx;
      simpl; [|done].
    destruct (onData t d _) as [t' pkts] eqn:Hon. intros [= <- <-]. simpl.
    split_and!; [done|done|by rewrite length_insert| |].
    + intros j Hj. by rewrite list_lookup_insert_ne.
    + exists t, pkts. split_and!; [done| |done].
      rewrite list_lookup_insert_eq; [done|].
      unfold slice_index in Hidx. destruct (getTrackID d <? 0)%Z; [done|].
      by apply lookup_lt_Some in Hidx.
Qed.

End StreamEdgeCases.

(* ===================================================================== *)
(** * More on the HLS static source: track ids, frames, the end of the loop *)
(* ===================================================================== *)

Section HLSSourceMore.
Import HLSSource.

Variable ur : string.
Variable retryPause : Duration.

(** X4: what [onTracks] does with the answer of the path.  When the path
    refuses the tracks, the error goes back to the client and neither the
    stream nor the RTCP senders change.  When it accepts them, the stream of
    the answer is kept and RTCP senders are made for the announced tracks;
    the id then used for the frames of a kind is the position of the track of
    that kind in the announced list (video first), and a kind that has no
    track keeps the id it had. *)
Theorem hls_onTracks_spec (l : locals) (v a : option track)
    (so : option streamRef) (err : error) :
  let refused := onTracks l v a (ReadyRes so (Some err)) in
  let accepted := onTracks l v a (ReadyRes so None) in
  let l' := accepted.1.1 in
  (refused.2 = Some err
   ∧ refused.1.2 = [EvOnSourceStaticSetReady (announcedTracks v a)
                      (ReadyRes so (Some err))]
   ∧ stream refused.1.1 = stream l
   ∧ rtcpSenders refused.1.1 = rtcpSenders l)
  ∧ (accepted.2 = None
     ∧ accepted.1.2 = [ EvOnSourceStaticSetReady (announcedTracks v a)
                          (ReadyRes so None);
                        Log "ready";
                        EvRTCPSendersNew (announcedTracks v a) ]
     ∧ stream l' = so
     ∧ rtcpSenders l' = Some (announcedTracks v a))
  ∧ (∀ vt, v = Some vt →
           announcedTracks v a !! Z.to_nat (videoTrackID l') = Some vt)
  ∧ (∀ at', a = Some at' →
            announcedTracks v a !! Z.to_nat (audioTrackID l') = Some at')
  ∧ (v = None → videoTrackID l' = videoTrackID l)
  ∧ (a = None → audioTrackID l' = audioTrackID l)
  ∧ (∀ st isVideo payload, so = Some st →
       onFrame l' isVideo payload
       = [ EvRTCPSendersOnFrame
             (if isVideo then videoTrackID l' else audioTrackID l') payload;
           EvStreamOnFrame st
             (if isVideo then videoTrackID l' else audioTrackID l') payload ]).
Proof.
  unfold onTracks, announcedTracks, onFrame. simpl.
  split_and!; try done.
  - intros vt ->. by destruct a.
  - intros at' ->. by destruct v.
  - by intros ->.
  - by intros ->.
  - by intros st isVideo payload ->.
Qed.

Lemma runCallbacks_events l cbs :
  Forall (λ ev, isCallbackEvent ev = true) (runCallbacks l cbs).2.
Proof.
  revert l. induction cbs as [|cb rest IH]; intros l; simpl; [done|].
  destruct (runCallback l cb) as [l1 e1] eqn:Hcb.
  specialize (IH l1). destruct (runCallbacks l1 rest) as [l2 e2]. simpl in *.
  apply Forall_app. split; [|done].
  destruct cb as [v a res|isVideo payload]; simpl in Hcb.
  - unfold onTracks in Hcb. destruct (Err res); injection Hcb as <- <-;
      by repeat constructor.
  - injection Hcb as <- <-. unfold onFrame. destruct (stream l); by repeat constructor.
Qed.

(** X5: frames reach the stream only through an accepted answer of the path,
    and frames that arrive before one are dropped.  In every attempt, a frame
    handed to a stream goes to the stream of the last call of
    [OnSourceStaticSetReady] that returned without error before it, a call
    that was followed at once by the log line and by the making of the RTCP
    senders for the tracks it announced.  A frame that arrives while no call
    of [OnSourceStaticSetReady] has returned without error changes nothing:
    the attempt runs as it does without that frame. *)
Theorem hls_frames_after_ready (a : attempt) :
  (∀ pre st trackID payload post,
     (runInner ur a).1 = pre ++ EvStreamOnFrame st trackID payload :: post →
     ∃ pre1 pre2 tracks,
       pre = pre1 ++ EvOnSourceStaticSetReady tracks (ReadyRes (Some st) None)
                  :: Log "ready" :: EvRTCPSendersNew tracks :: pre2
       ∧ Forall (λ ev, isReadyAccepted ev = false) pre2)
  ∧ (∀ cbs1 isVideo payload cbs2,
       callbacks a = cbs1 ++ OnFrame isVideo payload :: cbs2 →
       Forall (λ ev, isReadyAccepted ev = false) (runCallbacks locals0 cbs1).2 →
       onFrame (runCallbacks locals0 cbs1).1 isVideo payload = []
       ∧ runInner ur a = runInner ur (Attempt (cbs1 ++ cbs2) (attemptEnd a))).
Proof.
  split.
  - intros pre st trackID payload post Htr.
    destruct (runInner_body ur a) as (body & l & Hevs & _ & [_ Hframes]).
    rewrite Hevs in Htr.
    apply app_eq_mid in Htr as [(post1 & Hbody & _)|(pre2 & _ & Hdef)].
    + by destruct (Hframes _ _ _ _ _ Hbody) as [[? _]|?].
    + assert (EvStreamOnFrame st trackID payload ∈ runInner_deferred l) as Hin.
      { rewrite Hdef. apply elem_of_app. right. left. }
      unfold runInner_deferred in Hin. destruct (stream l);
        repeat (apply elem_of_cons in Hin as [Hin|Hin]; [done|]);
        by apply elem_of_nil in Hin.
  - intros cbs1 isVideo payload cbs2 Hcbs Hnone.
    assert (stream (runCallbacks locals0 cbs1).1 = None) as Hstream.
    { destruct (runCallbacks_framesServed locals0 cbs1)
        as [[[Hs _]|(p1 & p2 & tr & Heq & _)] _]; [done|].
      rewrite Heq in Hnone. apply Forall_app in Hnone as [_ Hnone].
      by apply Forall_cons in Hnone as [? _]. }
    assert (onFrame (runCallbacks locals0 cbs1).1 isVideo payload = []) as Hdrop
      by (unfold onFrame; by rewrite Hstream).
    split; [done|].
    unfold runInner. rewrite Hcbs. simpl. rewrite !runCallbacks_app. simpl.
    rewrite Hdrop. by destruct (runCallbacks (runCallbacks locals0 cbs1).1 cbs2).
Qed.

Ltac count_events :=
  repeat first
    [ rewrite filter_app
    | rewrite filter_cons_True by done
    | rewrite filter_cons_False by done
    | rewrite filter_nil ].

Lemma runInner_events (a : attempt) :
  Forall (λ ev, isLoopExit ev = false) (runInner ur a).1
  ∧ length (filter (λ ev, isNewClient ev = true) (runInner ur a).1) = 1
  ∧ length (filter (λ ev, isClientWait ev = true) (runInner ur a).1) = 1.
Proof.
  unfold runInner.
  pose proof (runCallbacks_events locals0 (callbacks a)) as H1.
  destruct (runCallbacks locals0 (callbacks a)) as [l1 e1]. simpl in H1.
  assert (∀ l, Forall (λ ev, isCallbackEvent ev = true) l →
               Forall (λ ev, isLoopExit ev = false) l
               ∧ filter (λ ev, isNewClient ev = true) l = []
               ∧ filter (λ ev, isClientWait ev = true) l = []) as Hcb.
  { intros l Hl. split; [|split]; [|apply filter_false_nil..];
      rewrite Forall_forall in *; intros ev Hin; specialize (Hl ev Hin);
      by destruct ev. }
  assert (∀ l, Forall (λ ev, isLoopExit ev = false) (runInner_deferred l)
               ∧ filter (λ ev, isNewClient ev = true) (runInner_deferred l) = []
               ∧ filter (λ ev, isClientWait ev = true) (runInner_deferred l) = [])
    as Hdef.
  { intros l. unfold runInner_deferred. destruct (stream l); by repeat constructor. }
  destruct (Hcb e1 H1) as (Hx1 & Hn1 & Hw1).
  destruct (attemptEnd a) as [err|late]; simpl.
  - destruct (Hdef l1) as (Hxd & Hnd & Hwd). split_and!.
    + repeat first [done | constructor | (apply Forall_app; split)].
    + unfold runInner_deferred. destruct (stream l1); count_events; by rewrite Hn1.
    + unfold runInner_deferred. destruct (stream l1); count_events; by rewrite Hw1.
  - pose proof (runCallbacks_events l1 late) as H2.
    destruct (runCallbacks l1 late) as [l2 e2]. simpl in *.
    destruct (Hcb e2 H2) as (Hx2 & Hn2 & Hw2).
    destruct (Hdef l2) as (Hxd & Hnd & Hwd). split_and!.
    + repeat first [done | constructor | (apply Forall_app; split)].
    + unfold runInner_deferred. destruct (stream l2); count_events;
        by rewrite Hn1, Hn2.
    + unfold runInner_deferred. destruct (stream l2); count_events;
        by rewrite Hw1, Hw2.
Qed.

(** X6: how [run] ends.  When [run] has returned, cancelling the context and
    [wg.Done()] are its last two calls and happen nowhere before; as long as
    it has not returned, neither has happened. *)
Theorem hls_run_exit (rounds : list round) :
  if (run ur retryPause rounds).2 then
    ∃ body, (run ur retryPause rounds).1 = body ++ [EvCtxCancel; EvWgDone]
            ∧ Forall (λ ev, isLoopExit ev = false) body
  else Forall (λ ev, isLoopExit ev = false) (run ur retryPause rounds).1.
Proof.
  induction rounds as [|r rest IH]; simpl; [done|].
  destruct (runInner_events (roundAttempt r)) as (Hx & _ & _).
  destruct (runInner ur (roundAttempt r)) as [e1 ok]. simpl in Hx.
  destruct ok.
  - destruct (roundPause r).
    + destruct (run ur retryPause rest) as [e2 [|]]; simpl in *.
      * destruct IH as (body & -> & Hbody).
        exists (e1 ++ EvRetryPause retryPause :: body). split.
        -- by rewrite <- (assoc_L (++)).
        -- apply Forall_app. split; [done|]. by constructor.
      * apply Forall_app. split; [done|]. by constructor.
    + exists (e1 ++ [EvCtxDone]). split.
      * by rewrite <- (assoc_L (++)).
      * apply Forall_app. split; [done|]. by repeat constructor.
  - by exists e1.
Qed.

(** X7: no client is left behind.  In every trace of [run], as many clients
    were created as ends of clients were awaited, one of each per attempt;
    when no round observes cancellation, that is one per round. *)
Theorem hls_run_clients (rounds : list round) :
  length (filter (λ ev, isNewClient ev = true) (run ur retryPause rounds).1)
  = length (filter (λ ev, isClientWait ev = true) (run ur retryPause rounds).1)
  ∧ length (filter (λ ev, isNewClient ev = true) (run ur retryPause rounds).1)
    ≤ length rounds
  ∧ (Forall (λ r, cancelled r = false) rounds →
     length (filter (λ ev, isNewClient ev = true) (run ur retryPause rounds).1)
     = length rounds).
Proof.
  induction rounds as [|r rest (IHeq & IHle & IHall)]; simpl.
  - split_and!; [done|done|done].
  - destruct (runInner_events (roundAttempt r)) as (_ & Hn & Hw).
    pose proof (runInner_ok ur (roundAttempt r)) as Hok.
    unfold cancelled.
    destruct (runInner ur (roundAttempt r)) as [e1 ok]. simpl in *. subst ok.
    destruct (attemptEnd (roundAttempt r)) as [err|late] eqn:Hend.
    + destruct (roundPause r) eqn:Hpause.
      * destruct (run ur retryPause rest) as [e2 ret2]. simpl in *.
        rewrite !filter_app, !length_app.
        rewrite (filter_cons_False (λ ev, isNewClient ev = true)) by done.
        rewrite (filter_cons_False (λ ev, isClientWait ev = true)) by done.
        split_and!; [lia|lia|].
        intros Hall. apply Forall_cons in Hall as [_ Hall].
        specialize (IHall Hall). lia.
      * simpl. rewrite !filter_app, !length_app. simpl.
        split_and!; [lia|lia|]. intros Hall. apply Forall_cons in Hall as [Hr _].
        by rewrite Hend, Hpause in Hr.
    + simpl. rewrite !filter_app, !length_app. simpl.
      split_and!; [lia|lia|]. intros Hall. apply Forall_cons in Hall as [Hr _].
      by rewrite Hend in Hr.
Qed.

End HLSSourceMore.

(** X5, an instance: the video frame of [exAttemptError] reaches the stream 7
    that the path handed over when it accepted the tracks. *)
Lemma hls_frames_after_ready_witness :
  ∃ pre1 pre2 tracks,
    [ HLSSource.EvNewClient "http://upstream/index.m3u8";
      HLSSource.EvOnSourceStaticSetReady [1; 2] (HLSSource.ReadyRes (Some 7) None);
      HLSSource.EvLog "[hls source] ready";
      HLSSource.EvRTCPSendersNew [1; 2];
      HLSSource.EvRTCPSendersOnFrame 0 [] ]
    = pre1 ++ HLSSource.EvOnSourceStaticSetReady tracks (HLSSource.ReadyRes (Some 7) None)
           :: HLSSource.Log "ready" :: HLSSource.EvRTCPSendersNew tracks :: pre2
    ∧ Forall (λ ev, HLSSource.isReadyAccepted ev = false) pre2.
Proof.
  exact (proj1 (hls_frames_after_ready "http://upstream/index.m3u8"
                  HLSSource.exAttemptError)
           [ HLSSource.EvNewClient "http://upstream/index.m3u8";
             HLSSource.EvOnSourceStaticSetReady [1; 2]
               (HLSSource.ReadyRes (Some 7) None);
             HLSSource.EvLog "[hls source] ready";
             HLSSource.EvRTCPSendersNew [1; 2];
             HLSSource.EvRTCPSendersOnFrame 0 [] ]
           7 0%Z []
           [ HLSSource.EvClientWait; HLSSource.EvLog "[hls source] ERR: EOF";
             HLSSource.EvOnSourceStaticSetNotReady; HLSSource.EvRTCPSendersClose ]
           eq_refl).
Defined.

(* ===================================================================== *)
(** * More on the SRT session: the answer to the listener, penalties,
      clean-up *)
(* ===================================================================== *)

Section SRTSessionMore.
Import SRT.

Variable c : conn.
Variable e : env.
Variable streamID_unmarshal : string → streamID + error.

Lemma filter_disjoint (P Q : event → bool) (l : list event) :
  Forall (λ ev, Q ev = true) l →
  (∀ ev, Q ev = true → P ev = false) →
  filter (λ ev, P ev = true) l = [].
Proof.
  intros Hl HPQ. induction Hl as [|ev l Hev _ IH]; [done|].
  rewrite filter_cons_False; [done|]. by rewrite (HPQ ev Hev).
Qed.

Lemma srtCheckPassphrase_events connReq passphrase :
  Forall (λ ev, isCheckEvent ev = true) (srtCheckPassphrase connReq passphrase).1.
Proof.
  unfold srtCheckPassphrase.
  destruct (decide (passphrase = "")); [by constructor|].
  destruct (IsEncrypted connReq); simpl; [|by repeat constructor].
  destruct (SetPassphrase connReq passphrase); by repeat constructor.
Qed.

Lemma readLoop_events st rs :
  Forall (λ ev, isPublishReaderEvent ev = true) (readLoop e st rs).1.
Proof.
  induction rs as [|us rest IH]; simpl.
  - by repeat constructor.
  - constructor; [done|]. apply Forall_app. split; [|exact IH].
    apply Forall_fmap. by apply Forall_true.
Qed.

Lemma runPublishReader_events sconn p :
  Forall (λ ev, isPublishReaderEvent ev = true) (runPublishReader c e sconn p).1.
Proof.
  unfold runPublishReader.
  destruct (NewReader e) as [err|]; simpl; [by repeat constructor|].
  destruct (ToStream e) as [medias|err]; simpl; [|by repeat constructor].
  destruct (StartPublisher e medias) as [st|err]; simpl; [|by repeat constructor].
  repeat (constructor; [done|]). apply readLoop_events.
Qed.

#[local] Opaque runPublishReader.

Ltac list_norm :=
  repeat first
    [ progress (unfold bind, emit, emitAll, defer, ret)
    | progress cbn [fst snd app]
    | rewrite app_nil_r
    | rewrite <- app_assoc ].

(** [runPublish], one list of calls per way through it. *)
Lemma runPublish_cases (req : srtNewConnReq) (sid : streamID) :
  runPublish c e req sid
  = let areq := accessRequest c sid true in
    match AddPublisher e areq with
    | inr err =>
        match errors_As_AuthenticationError err with
        | Some terr => ([EvAddPublisher areq; EvSleep pauseAfterAuthError], (false, terr))
        | None => ([EvAddPublisher areq], (false, err))
        end
    | inl p =>
        let chk := srtCheckPassphrase (connReq req) (SRTPublishPassphrase p) in
        match chk.2 with
        | Some err => (EvAddPublisher areq :: chk.1 ++ [EvRemovePublisher p], (false, err))
        | None =>
            match chSetConn e with
            | None =>
                (EvAddPublisher areq :: chk.1 ++ [EvResConn; EvRemovePublisher p],
                 (true, ErrMsg "terminated"))
            | Some sconn =>
                let rd := runPublishReader c e sconn p in
                match publishSelect e with
                | ReaderFirst =>
                    (EvAddPublisher areq :: chk.1
                       ++ EvResConn
                       :: EvSetState connStatePublish (path sid) (query sid) sconn
                       :: rd.1 ++ [EvSconnClose sconn; EvRemovePublisher p],
                     (true, rd.2))
                | CtxDoneFirst n =>
                    (EvAddPublisher areq :: chk.1
                       ++ EvResConn
                       :: EvSetState connStatePublish (path sid) (query sid) sconn
                       :: take n rd.1 ++ EvSconnClose sconn :: drop n rd.1
                       ++ [EvRemovePublisher p],
                     (true, ErrMsg "terminated"))
                end
            end
        end
    end.
Proof.
  unfold runPublish. simpl.
  destruct (AddPublisher e (accessRequest c sid true)) as [p|err]; simpl.
  - destruct (srtCheckPassphrase (connReq req) (SRTPublishPassphrase p)) as [e1 [err|]];
      simpl.
    { by list_norm. }
    unfold exchangeRequestWithConn.
    destruct (chSetConn e) as [sconn|]; simpl.
    2:{ by list_norm. }
    destruct (publishSelect e) as [|n]; by list_norm.
  - by destruct (errors_As_AuthenticationError err).
Qed.

(** [runRead], one list of calls per way through it. *)
Lemma runRead_cases (req : srtNewConnReq) (sid : streamID) :
  runRead c e req sid
  = let areq := accessRequest c sid false in
    match AddReader e areq with
    | inr err =>
        match errors_As_AuthenticationError err with
        | Some _ => ([EvAddReader areq; EvSleep pauseAfterAuthError], (false, err))
        | None => ([EvAddReader areq], (false, err))
        end
    | inl (p, st) =>
        let chk := srtCheckPassphrase (connReq req) (SRTReadPassphrase p) in
        match chk.2 with
        | Some err => (EvAddReader areq :: chk.1 ++ [EvRemoveReader p], (false, err))
        | None =>
            match chSetConn e with
            | None =>
                (EvAddReader areq :: chk.1 ++ [EvResConn; EvRemoveReader p],
                 (true, ErrMsg "terminated"))
            | Some sconn =>
                match FromStream e with
                | Some err =>
                    (EvAddReader areq :: chk.1
                       ++ [ EvResConn;
                            EvSetState connStateRead (path sid) (query sid) sconn;
                            EvAsyncWriterNew (writeQueueSize c); EvFromStream st;
                            EvStreamRemoveReader st; EvSconnClose sconn;
                            EvRemoveReader p ],
                     (true, err))
                | None =>
                    (EvAddReader areq :: chk.1
                       ++ [ EvResConn;
                            EvSetState connStateRead (path sid) (query sid) sconn;
                            EvAsyncWriterNew (writeQueueSize c); EvFromStream st;
                            EvLog ("is reading from path '" +:+ PathName p +:+ "'");
                            EvOnRead; EvSconnSetReadDeadline sconn None;
                            EvWriterStart ]
                       ++ match readSelect e with
                          | ReadCtxDone => [EvWriterStop]
                          | WriterError _ => []
                          end
                       ++ [ EvOnUnread; EvStreamRemoveReader st; EvSconnClose sconn;
                            EvRemoveReader p ],
                     (true, match readSelect e with
                            | ReadCtxDone => ErrMsg "terminated"
                            | WriterError err => err
                            end))
                end
            end
        end
    end.
Proof.
  unfold runRead. simpl.
  destruct (AddReader e (accessRequest c sid false)) as [[p st]|err]; simpl.
  - destruct (srtCheckPassphrase (connReq req) (SRTReadPassphrase p)) as [e1 [err|]];
      simpl.
    { list_norm. reflexivity. }
    unfold exchangeRequestWithConn.
    destruct (chSetConn e) as [sconn|]; simpl.
    2:{ list_norm. reflexivity. }
    destruct (FromStream e) as [err|]; simpl.
    { list_norm. reflexivity. }
    destruct (readSelect e) as [|err]; list_norm; reflexivity.
  - by destruct (errors_As_AuthenticationError err).
Qed.

(** Every way through a session, with the calls of the passphrase check
    ([e1]) and of the reader goroutine ([rt]) left as they are. *)
Ltac session_cases :=
  rewrite run_trace; unfold runInner, runInner2;
  destruct (chNew e) as [req|] eqn:Hreq;
  [ destruct (streamID_unmarshal (StreamId (connReq req))) as [sid|uerr] eqn:Hsid;
    [ destruct (mode sid) eqn:Hmode;
      [ rewrite runRead_cases; cbv zeta;
        destruct (AddReader e (accessRequest c sid false)) as [[p st]|aerr] eqn:Hadd;
        [ pose proof (srtCheckPassphrase_events (connReq req) (SRTReadPassphrase p)) as Hev1;
          destruct (srtCheckPassphrase (connReq req) (SRTReadPassphrase p))
            as [e1 [cerr|]] eqn:Hchk;
          cbn [fst snd] in *;
          [ | destruct (chSetConn e) as [sconn|] eqn:Hconn;
              [ destruct (FromStream e) as [ferr|] eqn:Hfrom;
                [ | destruct (readSelect e) as [|werr] eqn:Hsel ] | ] ]
        | destruct (errors_As_AuthenticationError aerr) as [terr|] eqn:Has ]
      | rewrite runPublish_cases; cbv zeta;
        destruct (AddPublisher e (accessRequest c sid true)) as [p|aerr] eqn:Hadd;
        [ pose proof (srtCheckPassphrase_events (connReq req) (SRTPublishPassphrase p)) as Hev1;
          destruct (srtCheckPassphrase (connReq req) (SRTPublishPassphrase p))
            as [e1 [cerr|]] eqn:Hchk;
          cbn [fst snd] in *;
          [ | destruct (chSetConn e) as [sconn|] eqn:Hconn;
              [ pose proof (runPublishReader_events sconn p) as Hrd;
                destruct (runPublishReader c e sconn p) as [rt rerr];
                cbn [fst snd] in *;
                destruct (publishSelect e) as [|n] eqn:Hsel | ] ]
        | destruct (errors_As_AuthenticationError aerr) as [terr|] eqn:Has ] ]
    | ]
  | ];
  list_norm.

(** Counting the events of a kind in such a list. *)
Ltac count_session :=
  repeat first
    [ rewrite filter_app
    | rewrite filter_cons_True by done
    | rewrite filter_cons_False by done
    | rewrite filter_nil
    | match goal with
      | H : Forall (λ ev, ?Q ev = true) ?l |- context [filter (λ ev, ?P ev = true) ?l] =>
          rewrite (filter_disjoint P Q l H) by (by intros [])
      | H : Forall (λ ev, ?Q ev = true) ?l
        |- context [filter (λ ev, ?P ev = true) (take ?n ?l)] =>
          rewrite (filter_disjoint P Q (take n l) (Forall_take _ n l H)) by (by intros [])
      | H : Forall (λ ev, ?Q ev = true) ?l
        |- context [filter (λ ev, ?P ev = true) (drop ?n ?l)] =>
          rewrite (filter_disjoint P Q (drop n l) (Forall_drop _ n l H)) by (by intros [])
      end
    | progress cbn [fst snd app length] ].

(** X8: the listener always gets its answer.  A session that received a
    connection request sends exactly one answer on [req.res], the session
    itself or nil, whatever happens afterwards; a session that is cancelled
    before any request arrives sends none. *)
Theorem srt_one_answer :
  length (filter (λ ev, isAnswer ev = true) (run c e streamID_unmarshal).1)
  = match chNew e with
    | Some _ => 1
    | None => 0
    end.
Proof. session_cases; by count_session. Qed.

(** X9: when the listener gets the session as its answer.  The session
    answers with itself exactly when the request carries a valid stream ID,
    the path manager admits it (as a publisher or as a reader, by the mode of
    the stream ID) and the passphrase check against the passphrase of that
    mode passes; in every other case the answer, if any, is nil. *)
Theorem srt_accept_iff :
  filter (λ ev, isResConn ev = true) (run c e streamID_unmarshal).1
  = if accepted c e streamID_unmarshal then [EvResConn] else [].
Proof.
  unfold accepted, admission, passphraseOf.
  session_cases; count_session; rewrite ?Hmode, ?Hadd, ?Hchk; done.
Qed.

(** X10: a session that cannot start.  Cancelled before a request arrives,
    the session only runs its hooks and closes.  With a request whose stream
    ID does not parse, it answers nil and closes with the wrapped error,
    without asking the path manager anything. *)
Theorem srt_early_exit :
  (chNew e = None →
   (run c e streamID_unmarshal).1
   = [ EvOnConnect; EvCtxCancel; EvCloseConn; EvLog "closed: terminated";
       EvOnDisconnect; EvWgDone ])
  ∧ (∀ req err,
       chNew e = Some req →
       streamID_unmarshal (StreamId (connReq req)) = inr err →
       (run c e streamID_unmarshal).1
       = [ EvOnConnect; EvResNil; EvCtxCancel; EvCloseConn;
           EvLog ("closed: "
                  +:+ error_string
                        (ErrWrap ("invalid stream ID '" +:+ StreamId (connReq req) +:+ "'")
                                 err));
           EvOnDisconnect; EvWgDone ]).
Proof.
  split.
  - intros Hreq. rewrite run_trace. unfold runInner. by rewrite Hreq.
  - intros req err Hreq Hsid. rewrite run_trace. unfold runInner, runInner2.
    by rewrite Hreq, Hsid.
Qed.

(** X11: the penalty is for authentication errors only.  The session sleeps
    exactly when the path manager refused it with an [AuthenticationError]
    (possibly wrapped), then once and for [pauseAfterAuthError]; any other
    refusal, a wrong passphrase or a cancellation costs no sleep. *)
Theorem srt_sleep_iff :
  filter (λ ev, isSleep ev = true) (run c e streamID_unmarshal).1
  = if refusedForAuthentication c e streamID_unmarshal
    then [EvSleep pauseAfterAuthError] else [].
Proof.
  unfold refusedForAuthentication, admission.
  session_cases; count_session; rewrite ?Hmode, ?Hadd, ?Has; done.
Qed.

(** X12: the SRT connection is closed exactly once.  The session closes a
    connection only if it received one on [chSetConn], it closes that one,
    and it closes it as many times as it answered the listener with itself:
    once or never. *)
Theorem srt_conn_closed_once :
  countEvents isSconnClose (run c e streamID_unmarshal).1
  = match chSetConn e with
    | Some _ => countEvents isResConn (run c e streamID_unmarshal).1
    | None => 0
    end
  ∧ countEvents isSconnClose (run c e streamID_unmarshal).1 ≤ 1
  ∧ ∀ sconn, EvSconnClose sconn ∈ (run c e streamID_unmarshal).1 →
             chSetConn e = Some sconn.
Proof.
  split_and!.
  - unfold countEvents. session_cases; count_session; try done; by destruct (chSetConn e).
  - unfold countEvents. session_cases; count_session; lia.
  - intros sconn' Hin.
    assert (EvSconnClose sconn'
            ∈ filter (λ ev, isSconnClose ev = true) (run c e streamID_unmarshal).1)
      as Hin' by (by apply list_elem_of_filter).
    clear Hin. revert Hin'.
    session_cases; count_session; intros Hin;
      repeat (apply elem_of_cons in Hin as [Hin|Hin]; [by simplify_eq|]);
      by apply elem_of_nil in Hin.
Qed.

(** X13: a session does the work of its mode only.  With a stream ID in
    read mode the session makes none of the calls of a publisher (no
    [AddPublisher], no [StartPublisher], no unit written); with a stream ID in
    publish mode it makes none of the calls of a reader. *)
Theorem srt_mode_separation (req0 : srtNewConnReq) (sid0 : streamID) :
  chNew e = Some req0 →
  streamID_unmarshal (StreamId (connReq req0)) = inl sid0 →
  countEvents (match mode sid0 with
               | streamIDModeRead => isPublisherCall
               | streamIDModePublish => isReaderCall
               end) (run c e streamID_unmarshal).1 = 0.
Proof.
  intros Hreq0 Hsid0. unfold countEvents. revert Hreq0 Hsid0.
  session_cases; intros Hreq0 Hsid0; simplify_eq;
    try rewrite Hsid in Hsid0; simplify_eq; rewrite ?Hmode;
    by count_session.
Qed.

(** X14: whatever happens, the session cleans up.  The connect hook, the
    disconnect hook, the cancellation of the context, the removal from the
    server and [wg.Done()] happen once each, the last two calls being the
    disconnect hook and [wg.Done()].  The unread hook runs as often as the
    read hook, the async writer is removed from the stream as often as one
    was made, and the writer is never stopped without having been started. *)
Theorem srt_cleanup_paired :
  (∃ body, (run c e streamID_unmarshal).1 = body ++ [EvOnDisconnect; EvWgDone])
  ∧ countEvents (isEvent EvOnConnect) (run c e streamID_unmarshal).1 = 1
  ∧ countEvents (isEvent EvOnDisconnect) (run c e streamID_unmarshal).1 = 1
  ∧ countEvents (isEvent EvCtxCancel) (run c e streamID_unmarshal).1 = 1
  ∧ countEvents (isEvent EvCloseConn) (run c e streamID_unmarshal).1 = 1
  ∧ countEvents (isEvent EvWgDone) (run c e streamID_unmarshal).1 = 1
  ∧ countEvents (isEvent EvOnUnread) (run c e streamID_unmarshal).1
    = countEvents (isEvent EvOnRead) (run c e streamID_unmarshal).1
  ∧ countEvents isStreamRemoveReader (run c e streamID_unmarshal).1
    = countEvents isAsyncWriterNew (run c e streamID_unmarshal).1
  ∧ countEvents (isEvent EvWriterStop) (run c e streamID_unmarshal).1
    ≤ countEvents (isEvent EvWriterStart) (run c e streamID_unmarshal).1.
Proof.
  split.
  - rewrite run_trace. eexists (EvOnConnect :: _ ++ [_; _; _]).
    simpl. by rewrite <- (assoc_L (++)).
  - unfold countEvents. session_cases; split_and!; count_session; done || lia.
Qed.

End SRTSessionMore.

(** X13, an instance: the reader of [exEnvRead] makes no call of a
    publisher. *)
Lemma srt_mode_separation_witness :
  SRT.countEvents SRT.isPublisherCall
    (SRT.run SRT.exConn SRT.exEnvRead SRT.exUnmarshal).1 = 0.
Proof.
  exact (srt_mode_separation SRT.exConn SRT.exEnvRead SRT.exUnmarshal
           (SRT.MkNewConnReq (SRT.exConnRequest "read:cam1"))
           (SRT.MkStreamID SRT.streamIDModeRead "cam1" "" "" "")
           eq_refl eq_refl).
Defined.
